(** * Hangman: the game state machine of [HangmanGame]

    A shallow embedding of the React component [HangmanGame]: its state
    variables become one record, each event handler becomes a function on
    that record, and the win/loss [useEffect] becomes a function that the
    commit of a render applies when one of its dependencies changed.

    Modelling choices.
    - JavaScript strings are Rocq strings, one [ascii] per code unit; every
      word of [WORDS] and every key of the on-screen keyboard is ASCII.
    - [guessed] is a [Set<string>]: a [gset string].
    - [wrong] is a JavaScript number that only ever holds integers: [Z].
    - [levelIndex] only ever holds array positions ([0], a result of
      [indexOf] that passed the test [i >= 0], or a remainder of a
      non-negative number): [nat], on which [mod] is JavaScript's [%].
    - [scale] (a floating-point display factor) and [containerRef] do not
      take part in the game logic and are left out.
    - Events are handled one at a time, each by the handler of the last
      committed render, so with the [status] of that render. The win/loss
      effect runs after a commit, but the status it sets lands in a later
      render, and an event may be handled before that render: with the word
      complete, or the counter at [MAX_WRONG], and the status still
      "playing". The states of the model are the committed renders: an
      event's handler ([handle]) and the commit of the effect's status
      ([winLossEffect]) are separate transitions, taken in any order. [step]
      is the event whose status update is committed before the next event
      comes. *)

From Stdlib Require Import ZArith Ascii.
From stdpp Require Import base decidable list strings gmap sets.

Local Open Scope Z_scope.

(** ** Constants *)

(** [type GameStatus = "start" | "playing" | "won" | "lost"] *)
Inductive GameStatus : Set := start | playing | won | lost.

#[global] Instance GameStatus_eq_dec : EqDecision GameStatus.
Proof. solve_decision. Defined.

Definition WORDS : list string :=
  [ "JAVASCRIPT"; "REACT"; "HANGMAN"; "DEVELOPER"; "PROGRAM";
    "COMPUTER"; "ALGORITHM"; "FUNCTION"; "VARIABLE"; "COMPILER" ].

Definition MAX_WRONG : Z := 6.

(** ** String primitives used by the component *)

(** [w.split("")]: the code units of [w], each as a one-character string. *)
Fixpoint split (w : string) : list string :=
  match w with
  | EmptyString => []
  | String c w' => String c EmptyString :: split w'
  end.

(** [l.join(sep)] *)
Fixpoint join (sep : string) (l : list string) : string :=
  match l with
  | [] => EmptyString
  | [x] => x
  | x :: rest => x +:+ sep +:+ join sep rest
  end.

(** [w.includes(l)]: [l] occurs in [w] as a contiguous substring. *)
Fixpoint includes (w l : string) : bool :=
  String.prefix l w ||
  match w with
  | EmptyString => false
  | String _ w' => includes w' l
  end.

(** [l.indexOf(x)]; [None] stands for the result [-1]. *)
Fixpoint indexOf (l : list string) (x : string) : option nat :=
  match l with
  | [] => None
  | y :: l' => if decide (y = x) then Some 0%nat else S <$> indexOf l' x
  end.

(** [!w] on a string: only the empty string is falsy. *)
Definition falsy (w : string) : bool :=
  match w with EmptyString => true | _ => false end.

(** ** State *)

Record State : Type := mkState {
  targetWord : string;
  guessed : gset string;
  wrong : Z;
  status : GameStatus;
  isPaused : bool;
  isMuted : bool;
  showSidebar : bool;
  levelIndex : nat
}.

(** The values passed to [useState] *)
Definition initialState : State :=
  {| targetWord := EmptyString; guessed := ∅; wrong := 0; status := start;
     isPaused := false; isMuted := false; showSidebar := false;
     levelIndex := 0%nat |}.

(** [WORDS[i]]; out of range JavaScript yields [undefined], which [pickWord]
    never meets (lemmas [pickWord_idx_lookup] and [pickWord_rnd_lookup]). *)
Definition wordAt (i : nat) : string := default EmptyString (WORDS !! i).

(** [pickWord(idx?)]: [rnd] stands for
    [Math.floor(Math.random() * WORDS.length)], a position of [WORDS]. *)
Definition pickWord (idx : option nat) (rnd : nat) : string :=
  match idx with
  | Some i => wordAt (i mod length WORDS)
  | None => wordAt rnd
  end.

(** ** Event handlers and effects *)

(** The mount effect: a random word and the level index that goes with it. *)
Definition initEffect (rnd : nat) (s : State) : State :=
  let initial := pickWord None rnd in
  let i := indexOf WORDS initial in
  {| targetWord := initial;
     guessed := ∅;
     wrong := 0;
     status := playing;
     isPaused := isPaused s;
     isMuted := isMuted s;
     showSidebar := showSidebar s;
     levelIndex := match i with Some i => i | None => 0%nat end |}.

Definition reset (s : State) : State :=
  {| targetWord := targetWord s;
     guessed := ∅;
     wrong := 0;
     status := playing;
     isPaused := false;
     isMuted := isMuted s;
     showSidebar := false;
     levelIndex := levelIndex s |}.

Definition nextWord (s : State) : State :=
  let nextIndex := ((levelIndex s + 1) mod length WORDS)%nat in
  {| targetWord := pickWord (Some nextIndex) 0;
     guessed := ∅;
     wrong := 0;
     status := playing;
     isPaused := false;
     isMuted := isMuted s;
     showSidebar := false;
     levelIndex := nextIndex |}.

(** The [display] memo *)
Definition display (s : State) : string :=
  if falsy (targetWord s) then EmptyString
  else join " "
         ((λ ch, if bool_decide (ch ∈ guessed s) then ch else "_")
            <$> split (targetWord s)).

(** [targetWord.split("").every((ch) => guessed.has(ch))] *)
Definition hasWon (s : State) : bool :=
  forallb (λ ch, bool_decide (ch ∈ guessed s)) (split (targetWord s)).

Definition setStatus (st : GameStatus) (s : State) : State :=
  {| targetWord := targetWord s;
     guessed := guessed s;
     wrong := wrong s;
     status := st;
     isPaused := isPaused s;
     isMuted := isMuted s;
     showSidebar := showSidebar s;
     levelIndex := levelIndex s |}.

(** The win/loss effect, with dependencies
    [[guessed, wrong, targetWord, status]]. *)
Definition winLossEffect (s : State) : State :=
  if falsy (targetWord s) || negb (bool_decide (status s = playing)) then s
  else if hasWon s then setStatus won s
  else if bool_decide (MAX_WRONG ≤ wrong s) then setStatus lost s
  else s.

Definition onGuess (letter : string) (s : State) : State :=
  if negb (bool_decide (status s = playing)) || isPaused s then s
  else if bool_decide (letter ∈ guessed s) then s
  else
    let next := guessed s ∪ {[ letter ]} in
    {| targetWord := targetWord s;
       guessed := next;
       wrong := if negb (includes (targetWord s) letter)
                then wrong s + 1 else wrong s;
       status := status s;
       isPaused := isPaused s;
       isMuted := isMuted s;
       showSidebar := showSidebar s;
       levelIndex := levelIndex s |}.

Definition togglePause (s : State) : State :=
  let next := negb (isPaused s) in
  {| targetWord := targetWord s;
     guessed := guessed s;
     wrong := wrong s;
     status := status s;
     isPaused := next;
     isMuted := isMuted s;
     showSidebar := next;
     levelIndex := levelIndex s |}.

Definition toggleMute (s : State) : State :=
  {| targetWord := targetWord s;
     guessed := guessed s;
     wrong := wrong s;
     status := status s;
     isPaused := isPaused s;
     isMuted := negb (isMuted s);
     showSidebar := showSidebar s;
     levelIndex := levelIndex s |}.

(** ** Rendering: when the win/loss effect runs *)

(** The dependency array of the win/loss effect. React compares primitives
    by value and the set by identity; a handler that calls [setGuessed]
    always passes a fresh set, and wherever that fresh set equals the old
    one by value ([reset], [nextWord]) the effect changes nothing
    (lemmas [winLossEffect_reset] and [winLossEffect_nextWord]), so
    comparing by value gives the same committed state. *)
Definition deps (s : State) : gset string * Z * string * GameStatus :=
  (guessed s, wrong s, targetWord s, status s).

(** One commit: the effect runs on the new state iff a dependency changed. *)
Definition rerender (prev next : State) : State :=
  if bool_decide (deps prev = deps next) then next else winLossEffect next.

(** A state update followed by the commits that settle it: the render of
    the update, and the render of the status that the effect sets, after
    which nothing changes any more (lemma [settle_stable]). *)
Definition settle (prev next : State) : State :=
  let s1 := rerender prev next in
  rerender next s1.

(** The user's actions *)
Inductive Event : Type :=
| Guess (letter : string)
| Reset
| NextWord
| TogglePause
| ToggleMute.

Definition handle (e : Event) (s : State) : State :=
  match e with
  | Guess letter => onGuess letter s
  | Reset => reset s
  | NextWord => nextWord s
  | TogglePause => togglePause s
  | ToggleMute => toggleMute s
  end.

(** One user action with its status update committed before any other
    event: the handler, then the render of the effect's status. *)
Definition step (e : Event) (s : State) : State := settle s (handle e s).

(** The operations in the vocabulary of the specification *)
Definition guess (letter : string) : State → State := step (Guess letter).
Definition doReset : State → State := step Reset.
Definition doNextWord : State → State := step NextWord.

(** The first render and its effects: the win/loss effect sees the empty
    [targetWord] of [initialState] and returns; the mount effect stores the
    round, and the commit of that update follows. *)
Definition mount (rnd : nat) : State :=
  settle (winLossEffect initialState) (initEffect rnd initialState).

Definition run (es : list Event) (s : State) : State :=
  foldl (λ s e, step e s) s es.

(** What moves the component from one committed render to the next: an
    event, handled on the render as it stands, or the commit of the status
    that the win/loss effect has set for it. *)
Inductive Action : Type :=
| Handle (e : Event)
| Commit.

Definition act (a : Action) (s : State) : State :=
  match a with
  | Handle e => handle e s
  | Commit => winLossEffect s
  end.

Definition exec (acts : list Action) (s : State) : State :=
  foldl (λ s a, act a s) s acts.

(** The events of a sequence of actions, in their order *)
Definition events (acts : list Action) : list Event :=
  omap (λ a, match a with Handle e => Some e | Commit => None end) acts.

(** The renders the component can commit once the mount effect has run: an
    event may find the status update of the effect committed or still
    pending. *)
Inductive reachable : State → Prop :=
| reachable_mount rnd :
    (rnd < length WORDS)%nat → reachable (mount rnd)
| reachable_handle e s :
    reachable s → reachable (handle e s)
| reachable_commit s :
    reachable s → reachable (winLossEffect s).

(** ** Vocabulary of the statements *)

(** Every character of [targetWord] is a member of the guessed set. *)
Definition fullyGuessed (s : State) : Prop :=
  ∀ ch, ch ∈ split (targetWord s) → ch ∈ guessed s.

(** A guess is taken when the round is in play, the game is not paused and
    the letter is new. *)
Definition accepts (letter : string) (s : State) : Prop :=
  status s = playing ∧ isPaused s = false ∧ letter ∉ guessed s.

#[global] Instance accepts_dec letter s : Decision (accepts letter s).
Proof. unfold accepts. apply _. Defined.

(** The status a round has, given its guesses: the win check comes first. *)
Definition verdict (s : State) : GameStatus :=
  if hasWon s then won
  else if bool_decide (MAX_WRONG ≤ wrong s) then lost else playing.

Record Inv (s : State) : Prop := mkInv {
  inv_word : WORDS !! levelIndex s = Some (targetWord s);
  inv_started : status s ≠ start;
  inv_won : status s = won → hasWon s = true;
  inv_lost : status s = lost → MAX_WRONG ≤ wrong s ∧ hasWon s = false;
  inv_wrong : 0 ≤ wrong s
}.

(** The guess that counts as wrong: taken, and not contained in the word. *)
Definition wrongGuess (e : Event) (s : State) : Prop :=
  ∃ L, e = Guess L ∧ (L ∉ guessed s) ∧ includes (targetWord s) L = false ∧
       status s = playing ∧ isPaused s = false.

(** The word is the one at the level index, which is a position of
    [WORDS]. *)
Definition wordAtLevel (s : State) : Prop :=
  WORDS !! levelIndex s = Some (targetWord s) ∧
  (0 ≤ levelIndex s < length WORDS)%nat.

(** The actions that start a round again *)
Definition restarts (e : Event) : bool :=
  match e with
  | Reset | NextWord => true
  | Guess _ | TogglePause | ToggleMute => false
  end.

(** How one character of the word is shown. *)
Definition shown (g : gset string) (c : ascii) : ascii :=
  if bool_decide (String c EmptyString ∈ g) then c else "_"%char.

(** Characters with one space between neighbours. *)
Fixpoint spaced (l : list ascii) : string :=
  match l with
  | [] => EmptyString
  | [c] => String c EmptyString
  | c :: l' => String c (String " " (spaced l'))
  end.

(** ** The rest of the component: constants and rendered parts *)

(** [ALPHABET]: [String.fromCharCode(65 + i)] for [i] from [0] to [25] *)
Definition ALPHABET : list string :=
  (λ i, String (ascii_of_nat (65 + i)) EmptyString) <$> seq 0 26.

Definition KEY_ROWS : list string := [ "QWERTYUIOP"; "ASDFGHJKL"; "ZXCVBNM" ].

(** The keys of the on-screen keyboard, row after row: [row.split("")] *)
Definition keys : list string := concat (split <$> KEY_ROWS).

(** The [disabled] attribute of the key of letter [l]:
    [used || status !== "playing" || isPaused] with [used = guessed.has(l)] *)
Definition keyDisabled (l : string) (s : State) : bool :=
  let used := bool_decide (l ∈ guessed s) in
  used || negb (bool_decide (status s = playing)) || isPaused s.

(** The elements of the drawing, with the attributes the component gives
    them; every body part has [fill="none"] or no fill at all. *)
Inductive Shape : Type :=
| line (x1 y1 x2 y2 : Z) (stroke : string) (strokeWidth : Z)
| circle (cx cy r : Z) (stroke : string) (strokeWidth : Z).

#[global] Instance Shape_eq_dec : EqDecision Shape.
Proof. solve_decision. Defined.

(** [{cond && <element />}] *)
Definition renderIf {A : Type} (cond : bool) (x : A) : list A :=
  if cond then [x] else [].

Definition gallows : list Shape :=
  [ line 20 180 160 180 "#654321" 6;
    line 40 180 40 20 "#654321" 6;
    line 40 20 120 20 "#654321" 6;
    line 120 20 120 40 "#654321" 6 ].

(** The six body parts in the order of the source *)
Definition bodyParts : list Shape :=
  [ circle 120 55 15 "#fff" 4;
    line 120 70 120 110 "#fff" 4;
    line 120 80 100 95 "#fff" 4;
    line 120 80 140 95 "#fff" 4;
    line 120 110 105 135 "#fff" 4;
    line 120 110 135 135 "#fff" 4 ].

(** [HangmanSVG({ wrong })]: the children of the [svg] element *)
Definition HangmanSVG (wrong : Z) : list Shape :=
  [ line 20 180 160 180 "#654321" 6;
    line 40 180 40 20 "#654321" 6;
    line 40 20 120 20 "#654321" 6;
    line 120 20 120 40 "#654321" 6 ]
  ++ renderIf (wrong >? 0) (circle 120 55 15 "#fff" 4)
  ++ renderIf (wrong >? 1) (line 120 70 120 110 "#fff" 4)
  ++ renderIf (wrong >? 2) (line 120 80 100 95 "#fff" 4)
  ++ renderIf (wrong >? 3) (line 120 80 140 95 "#fff" 4)
  ++ renderIf (wrong >? 4) (line 120 110 105 135 "#fff" 4)
  ++ renderIf (wrong >? 5) (line 120 110 135 135 "#fff" 4).

(** The buttons of the action row, by their text *)
Definition actionButtons (s : State) : list string :=
  renderIf (bool_decide (status s = won) || bool_decide (status s = lost))
    "Play Again"
  ++ renderIf (bool_decide (status s = playing)) "Reset".

(** The status line under the word *)
Definition statusLine (s : State) : list string :=
  renderIf (bool_decide (status s = won)) "Nice! You guessed it!"
  ++ renderIf (bool_decide (status s = lost))
       ("Oops! The word was " +:+ targetWord s).

(** The condition of the pause overlay: [isPaused && status === "playing"] *)
Definition pauseOverlay (s : State) : bool :=
  isPaused s && bool_decide (status s = playing).

(** The [aria-label] of the pause button *)
Definition pauseButtonLabel (s : State) : string :=
  if showSidebar s then "Resume game" else "Pause game".

(** The buttons of the sidebar under the pause button, by [aria-label] *)
Definition sidebarButtons (s : State) : list string :=
  if showSidebar s
  then [ (if isMuted s then "Unmute" else "Mute"); "Reset game"; "Next level" ]
  else [].

(** ** Vocabulary of the further statements *)

(** The guessed letters that the word does not contain *)
Definition wrongLetters (s : State) : gset string :=
  filter (λ L, includes (targetWord s) L = false) (guessed s).

Definition isGuess (e : Event) : bool :=
  match e with Guess _ => true | _ => false end.

Definition isToggleMute (e : Event) : bool :=
  match e with ToggleMute => true | _ => false end.

(** What holds in every reachable state beside [Inv] *)
Record RoundInv (s : State) : Prop := mkRoundInv {
  ri_sidebar : showSidebar s = isPaused s;
  ri_count : wrong s = Z.of_nat (size (wrongLetters s))
}.

(** The underscores of a round without guesses, [n] of them *)
Definition blanks (n : nat) : string := spaced (replicate n "_"%char).

(** * Lemmas *)

(** ** The word list *)

Lemma WORDS_length : length WORDS = 10%nat.
Proof. reflexivity. Qed.

Lemma WORDS_NoDup : NoDup WORDS.
Proof. apply (bool_decide_unpack (NoDup WORDS)). vm_compute. exact I. Qed.

Lemma WORDS_nonempty w : w ∈ WORDS → falsy w = false.
Proof.
  unfold WORDS. rewrite !elem_of_cons, elem_of_nil.
  intros H. repeat (destruct H as [-> | H]; [reflexivity |]). destruct H.
Qed.

Lemma wordAt_lookup i : (i < length WORDS)%nat → WORDS !! i = Some (wordAt i).
Proof.
  intros Hi. unfold wordAt.
  destruct (lookup_lt_is_Some_2 WORDS i Hi) as [w ->]. reflexivity.
Qed.

Lemma pickWord_idx_lookup i rnd :
  WORDS !! (i mod length WORDS)%nat = Some (pickWord (Some i) rnd).
Proof.
  apply wordAt_lookup. apply Nat.mod_upper_bound. rewrite WORDS_length. lia.
Qed.

Lemma pickWord_rnd_lookup rnd :
  (rnd < length WORDS)%nat → WORDS !! rnd = Some (pickWord None rnd).
Proof. apply wordAt_lookup. Qed.

Lemma indexOf_lookup (l : list string) i x :
  NoDup l → l !! i = Some x → indexOf l x = Some i.
Proof.
  intros Hnd. revert i. induction Hnd as [| y l Hy Hnd IH]; intros i Hi.
  - rewrite lookup_nil in Hi. discriminate.
  - destruct i as [| i]; simpl in *.
    + injection Hi as ->. rewrite decide_True by reflexivity. reflexivity.
    + rewrite decide_False.
      * rewrite (IH i Hi). reflexivity.
      * intros ->. apply Hy. apply list_elem_of_lookup. eauto.
Qed.

(** ** Letters *)

(** For a letter, a string of one character, [includes] is membership among
    the characters of the word, the test that [hasWon] and [display] use. *)
Lemma includes_letter (w : string) (c : ascii) :
  includes w (String c EmptyString) = true ↔ String c EmptyString ∈ split w.
Proof.
  induction w as [| a w IH].
  - simpl. rewrite elem_of_nil. split; [discriminate | tauto].
  - cbn [includes split String.prefix]. rewrite elem_of_cons, orb_true_iff, IH.
    destruct (ascii_dec c a) as [-> | Hne].
    + assert (Hp : String.prefix EmptyString w = true) by (destruct w; reflexivity).
      rewrite Hp. tauto.
    + split; [intros [? | ?]; [discriminate | tauto] |].
      intros [Heq | ?]; [congruence | tauto].
Qed.

(** ** The win test *)

Lemma hasWon_fullyGuessed s : hasWon s = true ↔ fullyGuessed s.
Proof.
  unfold hasWon, fullyGuessed. rewrite forallb_forall. split.
  - intros H ch Hch. apply list_elem_of_In in Hch.
    exact (proj1 (bool_decide_eq_true _) (H ch Hch)).
  - intros H ch Hch. apply list_elem_of_In in Hch.
    apply bool_decide_eq_true. auto.
Qed.

Lemma hasWon_not_fullyGuessed s : hasWon s = false ↔ ¬ fullyGuessed s.
Proof.
  rewrite <- hasWon_fullyGuessed. destruct (hasWon s); split; congruence.
Qed.

Lemma split_nonempty w : falsy w = false → ∃ ch l, split w = ch :: l.
Proof. destruct w; [discriminate | simpl; eauto]. Qed.

Lemma hasWon_no_guess s :
  falsy (targetWord s) = false → guessed s = ∅ → hasWon s = false.
Proof.
  intros Hw Hg. unfold hasWon. destruct (split_nonempty _ Hw) as (ch & l & ->).
  simpl. rewrite Hg, bool_decide_eq_false_2 by set_solver. reflexivity.
Qed.

(** ** The win/loss effect *)

Lemma winLossEffect_frame s :
  targetWord (winLossEffect s) = targetWord s ∧
  guessed (winLossEffect s) = guessed s ∧
  wrong (winLossEffect s) = wrong s ∧
  isPaused (winLossEffect s) = isPaused s ∧
  isMuted (winLossEffect s) = isMuted s ∧
  showSidebar (winLossEffect s) = showSidebar s ∧
  levelIndex (winLossEffect s) = levelIndex s.
Proof.
  unfold winLossEffect.
  repeat match goal with |- context [if ?b then _ else _] => destruct b end;
    repeat split.
Qed.

Lemma winLossEffect_not_playing s :
  status s ≠ playing → winLossEffect s = s.
Proof.
  intros H. unfold winLossEffect.
  rewrite (bool_decide_eq_false_2 _ H). simpl. rewrite orb_true_r. reflexivity.
Qed.

Lemma winLossEffect_no_word s :
  falsy (targetWord s) = true → winLossEffect s = s.
Proof. intros H. unfold winLossEffect. rewrite H. reflexivity. Qed.

(** On a round in play the effect decides the status, win check first. *)
Lemma winLossEffect_playing s :
  falsy (targetWord s) = false → status s = playing →
  status (winLossEffect s) =
    if hasWon s then won
    else if bool_decide (MAX_WRONG ≤ wrong s) then lost else playing.
Proof.
  intros Hw Hp. unfold winLossEffect.
  rewrite Hw, (bool_decide_eq_true_2 _ Hp). simpl.
  destruct (hasWon s); [reflexivity |].
  destruct (bool_decide (MAX_WRONG ≤ wrong s)); [reflexivity | exact Hp].
Qed.

Lemma winLossEffect_hasWon s : hasWon (winLossEffect s) = hasWon s.
Proof.
  destruct (winLossEffect_frame s) as (Ht & Hg & _).
  unfold hasWon. rewrite Ht, Hg. reflexivity.
Qed.

Lemma winLossEffect_idem s : winLossEffect (winLossEffect s) = winLossEffect s.
Proof.
  destruct (decide (status (winLossEffect s) = playing)) as [Hp | Hp];
    [| apply winLossEffect_not_playing; exact Hp].
  revert Hp. unfold winLossEffect at 1 3.
  destruct (falsy (targetWord s) || negb (bool_decide (status s = playing)));
    [reflexivity |].
  destruct (hasWon s); [discriminate |].
  destruct (bool_decide (MAX_WRONG ≤ wrong s)); [discriminate | reflexivity].
Qed.

Lemma winLossEffect_reset s : winLossEffect (reset s) = reset s.
Proof.
  destruct (falsy (targetWord s)) eqn:Hw;
    [apply winLossEffect_no_word; exact Hw |].
  unfold winLossEffect.
  rewrite (hasWon_no_guess (reset s)) by (simpl; auto). simpl.
  rewrite Hw. reflexivity.
Qed.

Lemma nextWord_in_WORDS s : targetWord (nextWord s) ∈ WORDS.
Proof.
  apply list_elem_of_lookup. eexists.
  exact (pickWord_idx_lookup ((levelIndex s + 1) mod length WORDS) 0).
Qed.

Lemma winLossEffect_nextWord s : winLossEffect (nextWord s) = nextWord s.
Proof.
  pose proof (WORDS_nonempty _ (nextWord_in_WORDS s)) as Hw.
  unfold winLossEffect.
  rewrite (hasWon_no_guess (nextWord s)) by (auto; reflexivity).
  rewrite Hw. reflexivity.
Qed.

(** ** Commits *)

Lemma rerender_same s : rerender s s = s.
Proof. unfold rerender. rewrite bool_decide_eq_true_2; reflexivity. Qed.

Lemma rerender_same_deps prev next :
  deps prev = deps next → rerender prev next = next.
Proof.
  intros H. unfold rerender. rewrite (bool_decide_eq_true_2 _ H). reflexivity.
Qed.

Lemma rerender_changed_deps prev next :
  deps prev ≠ deps next → rerender prev next = winLossEffect next.
Proof.
  intros H. unfold rerender. rewrite (bool_decide_eq_false_2 _ H). reflexivity.
Qed.

(** Two commits do what one does: the second run of the effect, if any,
    sees a status that it set itself. *)
Lemma settle_rerender prev next : settle prev next = rerender prev next.
Proof.
  unfold settle. destruct (decide (deps prev = deps next)) as [H | H].
  - rewrite (rerender_same_deps _ _ H). apply rerender_same.
  - rewrite (rerender_changed_deps _ _ H).
    unfold rerender. rewrite winLossEffect_idem.
    destruct (bool_decide _); reflexivity.
Qed.

Lemma settle_stable prev next :
  rerender (rerender prev next) (settle prev next) = settle prev next.
Proof. rewrite settle_rerender. apply rerender_same. Qed.

Lemma settle_cases prev next :
  settle prev next = next ∨ settle prev next = winLossEffect next.
Proof.
  rewrite settle_rerender. unfold rerender.
  destruct (bool_decide _); auto.
Qed.

Lemma settle_same_deps prev next :
  deps prev = deps next → settle prev next = next.
Proof. rewrite settle_rerender. apply rerender_same_deps. Qed.

Lemma settle_changed_deps prev next :
  deps prev ≠ deps next → settle prev next = winLossEffect next.
Proof. rewrite settle_rerender. apply rerender_changed_deps. Qed.

(** ** What one user action does *)

Lemma step_Reset s : step Reset s = reset s.
Proof.
  unfold step. simpl.
  destruct (settle_cases s (reset s)) as [-> | ->];
    [reflexivity | apply winLossEffect_reset].
Qed.

Lemma step_NextWord s : step NextWord s = nextWord s.
Proof.
  unfold step. simpl.
  destruct (settle_cases s (nextWord s)) as [-> | ->];
    [reflexivity | apply winLossEffect_nextWord].
Qed.

Lemma step_TogglePause s : step TogglePause s = togglePause s.
Proof. apply settle_same_deps. reflexivity. Qed.

Lemma step_ToggleMute s : step ToggleMute s = toggleMute s.
Proof. apply settle_same_deps. reflexivity. Qed.

Lemma onGuess_ignored letter s : ¬ accepts letter s → onGuess letter s = s.
Proof.
  unfold accepts, onGuess. intros H.
  case_bool_decide; simpl; [| reflexivity].
  destruct (isPaused s); [reflexivity |].
  case_bool_decide; [reflexivity |]. exfalso. apply H. auto.
Qed.

Lemma onGuess_accepted letter s :
  accepts letter s →
  onGuess letter s =
    {| targetWord := targetWord s;
       guessed := guessed s ∪ {[ letter ]};
       wrong := if includes (targetWord s) letter
                then wrong s else wrong s + 1;
       status := playing;
       isPaused := false;
       isMuted := isMuted s;
       showSidebar := showSidebar s;
       levelIndex := levelIndex s |}.
Proof.
  intros (Hp & Hq & Hl). unfold onGuess.
  rewrite (bool_decide_eq_true_2 _ Hp), Hq, (bool_decide_eq_false_2 _ Hl).
  simpl. rewrite Hp. destruct (includes (targetWord s) letter); reflexivity.
Qed.

Lemma step_Guess_ignored letter s :
  ¬ accepts letter s → step (Guess letter) s = s.
Proof.
  intros H. unfold step. simpl. rewrite (onGuess_ignored _ _ H).
  apply settle_same_deps. reflexivity.
Qed.

Lemma step_Guess_accepted letter s :
  accepts letter s → step (Guess letter) s = winLossEffect (onGuess letter s).
Proof.
  intros H. unfold step. simpl. apply settle_changed_deps.
  rewrite (onGuess_accepted _ _ H). unfold deps. simpl.
  destruct H as (_ & _ & Hl). intros Heq.
  assert (Hg : guessed s = guessed s ∪ {[ letter ]}) by congruence.
  apply Hl. rewrite Hg. apply elem_of_union_r, elem_of_singleton. reflexivity.
Qed.

Lemma mount_initEffect rnd :
  (rnd < length WORDS)%nat → mount rnd = initEffect rnd initialState.
Proof.
  intros Hr. unfold mount.
  assert (Hw : falsy (targetWord (initEffect rnd initialState)) = false).
  { apply WORDS_nonempty, list_elem_of_lookup. exists rnd.
    apply pickWord_rnd_lookup, Hr. }
  destruct (settle_cases (winLossEffect initialState)
              (initEffect rnd initialState)) as [-> | ->]; [reflexivity |].
  unfold winLossEffect.
  rewrite (hasWon_no_guess (initEffect rnd initialState)) by (auto; reflexivity).
  rewrite Hw. reflexivity.
Qed.

(** ** The invariant of the reachable states *)

Lemma hasWon_ext s s' :
  targetWord s = targetWord s' → guessed s = guessed s' → hasWon s = hasWon s'.
Proof. unfold hasWon. intros -> ->. reflexivity. Qed.

Lemma verdict_ext s s' :
  targetWord s = targetWord s' → guessed s = guessed s' → wrong s = wrong s' →
  verdict s = verdict s'.
Proof.
  intros Ht Hg Hw. unfold verdict. rewrite (hasWon_ext s s' Ht Hg), Hw.
  reflexivity.
Qed.

Lemma verdict_fresh s :
  falsy (targetWord s) = false → guessed s = ∅ → wrong s = 0 →
  verdict s = playing.
Proof.
  intros Hw Hg H0. unfold verdict.
  rewrite (hasWon_no_guess s Hw Hg), H0. reflexivity.
Qed.

Lemma Inv_word_nonempty s : Inv s → falsy (targetWord s) = false.
Proof.
  intros HI. apply WORDS_nonempty, list_elem_of_lookup.
  exists (levelIndex s). apply (inv_word s HI).
Qed.

Lemma status_cases s :
  Inv s → status s = won ∨ status s = lost ∨ status s = playing.
Proof.
  intros HI. pose proof (inv_started s HI). destruct (status s); tauto.
Qed.

(** A render with the status "playing" needs no more than its word. *)
Lemma Inv_playing_intro s :
  WORDS !! levelIndex s = Some (targetWord s) → status s = playing →
  0 ≤ wrong s → Inv s.
Proof.
  intros Hw Hp H0. split; [exact Hw | | | | exact H0];
    rewrite Hp; discriminate.
Qed.

Lemma Inv_mount rnd : (rnd < length WORDS)%nat → Inv (mount rnd).
Proof.
  intros Hr. rewrite (mount_initEffect _ Hr).
  pose proof (pickWord_rnd_lookup _ Hr) as Hw.
  apply Inv_playing_intro; [| reflexivity | simpl; lia].
  unfold initEffect. cbn [levelIndex targetWord].
  rewrite (indexOf_lookup _ _ _ WORDS_NoDup Hw). exact Hw.
Qed.

Lemma nextWord_lookup s :
  WORDS !! levelIndex (nextWord s) = Some (targetWord (nextWord s)).
Proof.
  unfold nextWord. cbn [levelIndex targetWord].
  rewrite <- (pickWord_idx_lookup _ 0%nat).
  rewrite Nat.Div0.mod_mod. reflexivity.
Qed.

Lemma Inv_handle e s : Inv s → Inv (handle e s).
Proof.
  intros HI. destruct e as [L | | | |]; simpl.
  - destruct (decide (accepts L s)) as [Ha | Ha].
    + rewrite (onGuess_accepted _ _ Ha).
      apply Inv_playing_intro; simpl;
        [apply (inv_word s HI) | reflexivity |].
      pose proof (inv_wrong s HI). destruct (includes (targetWord s) L); lia.
    + rewrite (onGuess_ignored _ _ Ha). exact HI.
  - apply Inv_playing_intro; simpl;
      [apply (inv_word s HI) | reflexivity | lia].
  - apply Inv_playing_intro;
      [apply nextWord_lookup | reflexivity | simpl; lia].
  - destruct HI as [Hw Hs Hwon Hlost Hb].
    split; [exact Hw | exact Hs | exact Hwon | exact Hlost | exact Hb].
  - destruct HI as [Hw Hs Hwon Hlost Hb].
    split; [exact Hw | exact Hs | exact Hwon | exact Hlost | exact Hb].
Qed.

Lemma Inv_commit s : Inv s → Inv (winLossEffect s).
Proof.
  intros HI. unfold winLossEffect.
  destruct (falsy (targetWord s) || negb (bool_decide (status s = playing)));
    [exact HI |].
  pose proof (inv_word s HI) as Hw. pose proof (inv_wrong s HI) as Hb.
  destruct (hasWon s) eqn:Hh.
  - split; simpl; try assumption; try discriminate. intros _. exact Hh.
  - case_bool_decide as Hle; [| exact HI].
    split; simpl; try assumption; try discriminate. intros _. auto.
Qed.

(** The status that the commit of the effect leaves, whatever it was *)
Lemma commit_status s : Inv s → status (winLossEffect s) = verdict s.
Proof.
  intros HI. pose proof (Inv_word_nonempty s HI) as Hne.
  destruct (status_cases s HI) as [H | [H | H]].
  - rewrite winLossEffect_not_playing by (rewrite H; discriminate).
    unfold verdict. rewrite (inv_won s HI H). exact H.
  - rewrite winLossEffect_not_playing by (rewrite H; discriminate).
    destruct (inv_lost s HI H) as [Hle Hh]. unfold verdict.
    rewrite Hh, bool_decide_eq_true_2 by exact Hle. exact H.
  - apply winLossEffect_playing; assumption.
Qed.

(** Where the effect has nothing left to change, the status is the verdict. *)
Lemma settled_status s : Inv s → winLossEffect s = s → status s = verdict s.
Proof. intros HI Hs. rewrite <- (commit_status s HI), Hs. reflexivity. Qed.

Lemma settled_playing s :
  Inv s → winLossEffect s = s → status s = playing →
  hasWon s = false ∧ wrong s < MAX_WRONG.
Proof.
  intros HI Hs Hp. rewrite (settled_status s HI Hs) in Hp. unfold verdict in Hp.
  destruct (hasWon s); [discriminate |].
  case_bool_decide; [discriminate |]. split; [reflexivity | lia].
Qed.

Lemma reachable_Inv s : reachable s → Inv s.
Proof.
  induction 1 as [rnd Hr | e s _ IH | s _ IH];
    [apply Inv_mount, Hr | apply Inv_handle, IH | apply Inv_commit, IH].
Qed.

(** [step] is a handler, followed or not by the commit of the status. *)
Lemma step_handle_commit e s :
  step e s = handle e s ∨ step e s = winLossEffect (handle e s).
Proof. apply settle_cases. Qed.

Lemma reachable_step e s : reachable s → reachable (step e s).
Proof.
  intros Hr. destruct (step_handle_commit e s) as [-> | ->].
  - apply reachable_handle, Hr.
  - apply reachable_commit, reachable_handle, Hr.
Qed.

Lemma reachable_run es s : reachable s → reachable (run es s).
Proof.
  revert s. induction es as [| e es IH]; intros s Hs; [exact Hs |].
  simpl. apply IH, reachable_step, Hs.
Qed.

Lemma reachable_exec acts s : reachable s → reachable (exec acts s).
Proof.
  revert s. induction acts as [| a acts IH]; intros s Hs; [exact Hs |].
  simpl. apply IH. destruct a; [apply reachable_handle | apply reachable_commit];
    exact Hs.
Qed.

(** * The claims *)

(** ** Status and guesses *)

(** C1, as amended. In every reachable state the status [won] means that
    every character of [targetWord] is in the guessed set, the status
    [lost] means that [wrong] has reached [MAX_WRONG] and the word is not
    fully guessed, and the two never hold together. The converses hold
    where the win/loss effect has nothing left to change, and so in every
    state once its status is committed: there the status is [won] exactly
    when the word is fully guessed, and [lost] exactly when [wrong] has
    reached [MAX_WRONG] and it is not. *)
Theorem status_won_lost (s : State) :
  reachable s →
  (status s = won → fullyGuessed s) ∧
  (status s = lost → MAX_WRONG ≤ wrong s ∧ ¬ fullyGuessed s) ∧
  ¬ (status s = won ∧ status s = lost) ∧
  (winLossEffect s = s →
   (status s = won ↔ fullyGuessed s) ∧
   (status s = lost ↔ MAX_WRONG ≤ wrong s ∧ ¬ fullyGuessed s)) ∧
  (status (winLossEffect s) = won ↔ fullyGuessed s) ∧
  (status (winLossEffect s) = lost ↔ MAX_WRONG ≤ wrong s ∧ ¬ fullyGuessed s).
Proof.
  intros Hr. pose proof (reachable_Inv s Hr) as HI.
  assert (Hv : (verdict s = won ↔ fullyGuessed s) ∧
               (verdict s = lost ↔ MAX_WRONG ≤ wrong s ∧ ¬ fullyGuessed s)).
  { rewrite <- hasWon_not_fullyGuessed, <- hasWon_fullyGuessed.
    unfold verdict. destruct (hasWon s);
      [| destruct (decide (MAX_WRONG ≤ wrong s)) as [Hle | Hle];
         [rewrite (bool_decide_eq_true_2 _ Hle)
         | rewrite (bool_decide_eq_false_2 _ Hle)]];
      intuition (congruence || lia). }
  split_and!.
  - intros Hw. apply hasWon_fullyGuessed, (inv_won s HI Hw).
  - intros Hl. destruct (inv_lost s HI Hl) as [Hle Hh].
    split; [exact Hle | apply hasWon_not_fullyGuessed, Hh].
  - intros [Hw Hl]. congruence.
  - intros Hs. rewrite (settled_status s HI Hs). exact Hv.
  - rewrite (commit_status s HI). apply Hv.
  - rewrite (commit_status s HI). apply Hv.
Qed.

Lemma status_won_lost_witness :
  let s := handle (Guess "T") (guess "Q" (guess "R" (mount 1))) in
  (status s = won → fullyGuessed s) ∧
  (status s = lost → MAX_WRONG ≤ wrong s ∧ ¬ fullyGuessed s) ∧
  ¬ (status s = won ∧ status s = lost) ∧
  (winLossEffect s = s →
   (status s = won ↔ fullyGuessed s) ∧
   (status s = lost ↔ MAX_WRONG ≤ wrong s ∧ ¬ fullyGuessed s)) ∧
  (status (winLossEffect s) = won ↔ fullyGuessed s) ∧
  (status (winLossEffect s) = lost ↔ MAX_WRONG ≤ wrong s ∧ ¬ fullyGuessed s).
Proof.
  apply status_won_lost.
  apply reachable_handle. do 2 apply reachable_step.
  apply reachable_mount. simpl. lia.
Defined.

(** C1 as first stated fails: on "REACT", when the guess of the last
    missing letter has been handled and the status that the effect sets is
    not yet committed, every character of the word is guessed and the
    status is still [playing]; the next click is handled in that state. *)
Lemma word_complete_status_playing :
  let s := handle (Guess "T")
             (guess "C" (guess "A" (guess "E" (guess "R" (mount 1))))) in
  reachable s ∧ fullyGuessed s ∧ status s = playing ∧
  ¬ (status s = won ↔ fullyGuessed s).
Proof.
  assert (Hf : fullyGuessed
                 (handle (Guess "T")
                    (guess "C" (guess "A" (guess "E" (guess "R" (mount 1))))))).
  { apply hasWon_fullyGuessed. vm_compute. reflexivity. }
  split_and!.
  - apply reachable_handle. do 4 apply reachable_step.
    apply reachable_mount. simpl. lia.
  - exact Hf.
  - vm_compute. reflexivity.
  - intros [_ H]. specialize (H Hf). vm_compute in H. discriminate.
Qed.

(** C2. In play and not paused, the guess of a letter that is not in the
    guessed set adds it to the set, adds one to [wrong] if [targetWord] does
    not contain the letter and leaves [wrong] as it is otherwise; the
    handler leaves the status [playing], and the effect that follows sets it
    from the new guesses, win check first: [won] if the word is complete,
    else [lost] if [wrong] has reached [MAX_WRONG], else still [playing]. *)
Theorem guess_new_letter (s : State) (L : string) :
  reachable s → status s = playing → isPaused s = false → L ∉ guessed s →
  (guessed (onGuess L s) = guessed s ∪ {[ L ]} ∧
   wrong (onGuess L s) =
     (if includes (targetWord s) L then wrong s else wrong s + 1) ∧
   status (onGuess L s) = playing) ∧
  guess L s = winLossEffect (onGuess L s) ∧
  guessed (guess L s) = guessed s ∪ {[ L ]} ∧
  wrong (guess L s) =
    (if includes (targetWord s) L then wrong s else wrong s + 1) ∧
  status (guess L s) =
    (if hasWon (guess L s) then won
     else if bool_decide (MAX_WRONG ≤ wrong (guess L s)) then lost
     else playing) ∧
  targetWord (guess L s) = targetWord s ∧
  levelIndex (guess L s) = levelIndex s ∧
  isPaused (guess L s) = false ∧
  isMuted (guess L s) = isMuted s ∧
  showSidebar (guess L s) = showSidebar s.
Proof.
  intros Hr Hp Hq Hl.
  assert (Ha : accepts L s) by (unfold accepts; auto).
  pose proof (Inv_handle (Guess L) s (reachable_Inv s Hr)) as HI.
  pose proof (commit_status _ HI) as Hs. simpl in HI, Hs.
  unfold guess. rewrite (step_Guess_accepted _ _ Ha).
  fold (verdict (winLossEffect (onGuess L s))).
  rewrite (verdict_ext (winLossEffect (onGuess L s)) (onGuess L s))
    by apply winLossEffect_frame.
  destruct (winLossEffect_frame (onGuess L s))
    as (Ht & Hg & Hw & Hpa & Hm & Hsb & Hli).
  rewrite Ht, Hg, Hw, Hpa, Hm, Hsb, Hli, Hs.
  rewrite (onGuess_accepted _ _ Ha). simpl. split_and!; reflexivity.
Qed.

(** The witness of C2 is a state in which the order of the two checks
    shows: five wrong letters, then R, E, A and C, then the wrong letter B
    handled with the status still [playing]; the guess of T completes the
    word with [wrong] at [MAX_WRONG]. *)
Lemma guess_new_letter_witness :
  let s := handle (Guess "B")
             (run [Guess "Q"; Guess "W"; Guess "X"; Guess "Y"; Guess "Z";
                   Guess "R"; Guess "E"; Guess "A"; Guess "C"] (mount 1)) in
  (guessed (onGuess "T" s) = guessed s ∪ {[ "T" ]} ∧
   wrong (onGuess "T" s) =
     (if includes (targetWord s) "T" then wrong s else wrong s + 1) ∧
   status (onGuess "T" s) = playing) ∧
  guess "T" s = winLossEffect (onGuess "T" s) ∧
  guessed (guess "T" s) = guessed s ∪ {[ "T" ]} ∧
  wrong (guess "T" s) =
    (if includes (targetWord s) "T" then wrong s else wrong s + 1) ∧
  status (guess "T" s) =
    (if hasWon (guess "T" s) then won
     else if bool_decide (MAX_WRONG ≤ wrong (guess "T" s)) then lost
     else playing) ∧
  targetWord (guess "T" s) = targetWord s ∧
  levelIndex (guess "T" s) = levelIndex s ∧
  isPaused (guess "T" s) = false ∧
  isMuted (guess "T" s) = isMuted s ∧
  showSidebar (guess "T" s) = showSidebar s.
Proof.
  apply guess_new_letter.
  - apply reachable_handle, reachable_run, reachable_mount. simpl. lia.
  - vm_compute. reflexivity.
  - vm_compute. reflexivity.
  - apply (bool_decide_unpack (_ ∉ _)). vm_compute. exact I.
Defined.

(** There the word is complete and [wrong] stands at [MAX_WRONG]: the win
    check, which comes first, decides. *)
Example win_check_first :
  let s := handle (Guess "B")
             (run [Guess "Q"; Guess "W"; Guess "X"; Guess "Y"; Guess "Z";
                   Guess "R"; Guess "E"; Guess "A"; Guess "C"] (mount 1)) in
  status s = playing ∧ wrong s = MAX_WRONG ∧
  hasWon (guess "T" s) = true ∧ wrong (guess "T" s) = MAX_WRONG ∧
  status (guess "T" s) = won.
Proof. vm_compute. auto. Qed.

(** ** The wrong-guess counter *)

Lemma wrong_step_cases e s :
  wrong (step e s) = wrong s ∨
  (wrong (step e s) = 0 ∧ (e = Reset ∨ e = NextWord)) ∨
  (wrong (step e s) = wrong s + 1 ∧ wrongGuess e s).
Proof.
  destruct e as [L | | | |].
  - destruct (decide (accepts L s)) as [Ha | Ha].
    + rewrite (step_Guess_accepted _ _ Ha).
      destruct (winLossEffect_frame (onGuess L s)) as (_ & _ & -> & _).
      rewrite (onGuess_accepted _ _ Ha). simpl.
      destruct (includes (targetWord s) L) eqn:Hin; [left; reflexivity |].
      right; right. split; [reflexivity |].
      destruct Ha as (Hp & Hq & Hl). exists L. auto.
    + rewrite (step_Guess_ignored _ _ Ha). left; reflexivity.
  - rewrite step_Reset. right; left. auto.
  - rewrite step_NextWord. right; left. auto.
  - rewrite step_TogglePause. left; reflexivity.
  - rewrite step_ToggleMute. left; reflexivity.
Qed.

Lemma wrong_step e s : wrong (step e s) = wrong (handle e s).
Proof.
  destruct (step_handle_commit e s) as [-> | ->]; [reflexivity |].
  apply winLossEffect_frame.
Qed.

(** C3, as amended. In every reachable state [0 ≤ wrong], and [wrong] is
    below [MAX_WRONG] where the status is [playing] and the win/loss effect
    has nothing left to change. [wrong] grows only by one, and only on the
    guess, in play and not paused, of a new letter that [targetWord] does
    not contain; its one other change is back to [0], by [reset] and
    [nextWord]; the commit of the status leaves it alone. *)
Theorem wrong_changes (s : State) (e : Event) :
  reachable s →
  0 ≤ wrong s ∧
  (status s = playing → winLossEffect s = s → wrong s < MAX_WRONG) ∧
  0 ≤ wrong (handle e s) ∧
  (wrong (handle e s) = wrong s ∨
   (wrong (handle e s) = 0 ∧ (e = Reset ∨ e = NextWord)) ∨
   (wrong (handle e s) = wrong s + 1 ∧ wrongGuess e s)) ∧
  wrong (step e s) = wrong (handle e s) ∧
  wrong (winLossEffect s) = wrong s.
Proof.
  intros Hr. pose proof (reachable_Inv s Hr) as HI. split_and!.
  - apply (inv_wrong s HI).
  - intros Hp Hs. apply (settled_playing s HI Hs Hp).
  - apply (inv_wrong (handle e s)), Inv_handle, HI.
  - rewrite <- wrong_step. apply wrong_step_cases.
  - apply wrong_step.
  - apply winLossEffect_frame.
Qed.

Lemma wrong_changes_witness :
  let s := guess "R" (mount 1) in
  let e := Guess "Q" in
  0 ≤ wrong s ∧
  (status s = playing → winLossEffect s = s → wrong s < MAX_WRONG) ∧
  0 ≤ wrong (handle e s) ∧
  (wrong (handle e s) = wrong s ∨
   (wrong (handle e s) = 0 ∧ (e = Reset ∨ e = NextWord)) ∨
   (wrong (handle e s) = wrong s + 1 ∧ wrongGuess e s)) ∧
  wrong (step e s) = wrong (handle e s) ∧
  wrong (winLossEffect s) = wrong s.
Proof.
  apply wrong_changes.
  apply reachable_step, reachable_mount. simpl. lia.
Defined.

(** C3 as first stated fails: after one wrong guess on "REACT", [reset]
    takes [wrong] from [1] to [0], a change that is not [+1]. *)
Lemma wrong_changes_by_reset :
  let s := guess "Q" (mount 1) in
  reachable s ∧ status s = playing ∧
  wrong s = 1 ∧ wrong (doReset s) = 0 ∧
  wrong (doReset s) ≠ wrong s ∧ wrong (doReset s) ≠ wrong s + 1.
Proof.
  split; [apply reachable_step, reachable_mount; simpl; lia |].
  vm_compute. repeat split; congruence.
Qed.

(** ** Restarting a round *)

Lemma Inv_wordAtLevel s : Inv s → wordAtLevel s.
Proof.
  intros [Hw _ _]. split; [exact Hw |].
  split; [lia | eapply lookup_lt_Some, Hw].
Qed.

(** C4. From every reachable state [reset] gives [wrong = 0], an empty
    guessed set, the status [playing], the pause and sidebar flags cleared,
    and the same [targetWord] and [levelIndex]: the word at the current
    level index is played again. *)
Theorem reset_same_word (s : State) :
  reachable s →
  wrong (doReset s) = 0 ∧
  guessed (doReset s) = ∅ ∧
  status (doReset s) = playing ∧
  isPaused (doReset s) = false ∧
  showSidebar (doReset s) = false ∧
  targetWord (doReset s) = targetWord s ∧
  levelIndex (doReset s) = levelIndex s ∧
  WORDS !! levelIndex s = Some (targetWord (doReset s)).
Proof.
  intros Hr. unfold doReset. rewrite step_Reset. simpl.
  split_and!; try reflexivity.
  apply (inv_word s), reachable_Inv, Hr.
Qed.

Lemma reset_same_word_witness :
  let s := guess "E" (guess "Q" (mount 1)) in
  wrong (doReset s) = 0 ∧
  guessed (doReset s) = ∅ ∧
  status (doReset s) = playing ∧
  isPaused (doReset s) = false ∧
  showSidebar (doReset s) = false ∧
  targetWord (doReset s) = targetWord s ∧
  levelIndex (doReset s) = levelIndex s ∧
  WORDS !! levelIndex s = Some (targetWord (doReset s)).
Proof.
  apply reset_same_word.
  do 2 apply reachable_step. apply reachable_mount. simpl. lia.
Defined.

(** C5. [nextWord] moves [levelIndex] to [(levelIndex + 1) mod N], with [N]
    the length of [WORDS], makes [targetWord] the word at that index, and
    leaves the round as [reset] does: [wrong = 0], no guesses, [playing],
    pause and sidebar cleared. *)
Theorem nextWord_advances (s : State) :
  levelIndex (doNextWord s) = ((levelIndex s + 1) mod length WORDS)%nat ∧
  WORDS !! levelIndex (doNextWord s) = Some (targetWord (doNextWord s)) ∧
  wrong (doNextWord s) = wrong (doReset s) ∧ wrong (doNextWord s) = 0 ∧
  guessed (doNextWord s) = guessed (doReset s) ∧ guessed (doNextWord s) = ∅ ∧
  status (doNextWord s) = status (doReset s) ∧
  status (doNextWord s) = playing ∧
  isPaused (doNextWord s) = isPaused (doReset s) ∧
  isPaused (doNextWord s) = false ∧
  showSidebar (doNextWord s) = showSidebar (doReset s) ∧
  showSidebar (doNextWord s) = false ∧
  isMuted (doNextWord s) = isMuted (doReset s).
Proof.
  unfold doNextWord, doReset. rewrite step_NextWord, step_Reset.
  split_and!; try reflexivity. apply nextWord_lookup.
Qed.

(** ** Guesses that are not taken *)

Lemma guess_keeps_letter s L :
  accepts L s → L ∈ guessed (step (Guess L) s).
Proof.
  intros Ha. rewrite (step_Guess_accepted _ _ Ha).
  destruct (winLossEffect_frame (onGuess L s)) as (_ & -> & _).
  rewrite (onGuess_accepted _ _ Ha). simpl.
  apply elem_of_union_r, elem_of_singleton. reflexivity.
Qed.

(** C6. The guess of a letter that is already in the guessed set changes
    nothing, so a second guess of the same letter changes nothing either:
    [wrong] and the size of the guessed set stay as the first guess left
    them. *)
Theorem guess_again (s : State) (L : string) :
  (L ∈ guessed s → guess L s = s) ∧
  guess L (guess L s) = guess L s ∧
  wrong (guess L (guess L s)) = wrong (guess L s) ∧
  size (guessed (guess L (guess L s))) = size (guessed (guess L s)).
Proof.
  assert (H1 : ∀ t, L ∈ guessed t → guess L t = t).
  { intros t Ht. apply step_Guess_ignored. intros (_ & _ & Hn). exact (Hn Ht). }
  assert (H2 : guess L (guess L s) = guess L s).
  { destruct (decide (accepts L s)) as [Ha | Ha].
    - apply H1, guess_keeps_letter, Ha.
    - unfold guess. rewrite !(step_Guess_ignored _ _ Ha). reflexivity. }
  split; [apply H1 |]. rewrite H2. auto.
Qed.

Lemma guess_again_witness :
  let s := guess "R" (mount 1) in
  guess "R" s = s.
Proof.
  apply (proj1 (guess_again (guess "R" (mount 1)) "R")).
  apply (bool_decide_unpack (_ ∈ _)). vm_compute. exact I.
Defined.

(** C7. While the game is paused the guess of any letter, guessed before
    or not, leaves the whole state as it was. *)
Theorem guess_paused (s : State) (L : string) :
  isPaused s = true → guess L s = s.
Proof.
  intros Hp. apply step_Guess_ignored. intros (_ & Hq & _). congruence.
Qed.

Lemma guess_paused_witness :
  let s := step TogglePause (guess "R" (mount 1)) in
  guess "E" s = s.
Proof. apply guess_paused. vm_compute. reflexivity. Defined.

(** ** Terminal states *)

Lemma step_terminal e s :
  status s ≠ playing → restarts e = false →
  status (step e s) = status s ∧ guessed (step e s) = guessed s ∧
  wrong (step e s) = wrong s ∧ targetWord (step e s) = targetWord s.
Proof.
  intros Hs He. destruct e as [L | | | |]; try discriminate.
  - rewrite step_Guess_ignored; [auto |]. intros (Hp & _). exact (Hs Hp).
  - rewrite step_TogglePause. auto.
  - rewrite step_ToggleMute. auto.
Qed.

(** C8. [won] and [lost] are terminal: from a state with one of them no
    sequence of guesses, pause toggles and mute toggles changes the status
    (nor the guesses or the counter); an action that gives [playing] again
    is [reset] or [nextWord], and both of them do. *)
Theorem won_lost_terminal (s : State) (es : list Event) :
  status s = won ∨ status s = lost →
  Forall (λ e, restarts e = false) es →
  status (run es s) = status s ∧
  guessed (run es s) = guessed s ∧
  wrong (run es s) = wrong s ∧
  (∀ e, status (step e (run es s)) = playing → restarts e = true) ∧
  status (step Reset (run es s)) = playing ∧
  status (step NextWord (run es s)) = playing.
Proof.
  intros Hs Hes.
  assert (Hnp : status s ≠ playing) by (destruct Hs as [-> | ->]; discriminate).
  clear Hs. rewrite step_Reset, step_NextWord. simpl.
  assert (Hrun : status (run es s) = status s ∧ guessed (run es s) = guessed s ∧
                 wrong (run es s) = wrong s).
  { revert s Hnp. induction Hes as [| e es He _ IH]; intros s Hnp; [auto |].
    destruct (step_terminal e s Hnp He) as (Hst & Hg & Hw & _).
    simpl. rewrite <- Hst, <- Hg, <- Hw. apply IH. rewrite Hst. exact Hnp. }
  destruct Hrun as (Hst & Hg & Hw). split_and!; auto.
  intros e He. destruct (restarts e) eqn:Hre; [reflexivity |].
  rewrite <- Hst in Hnp.
  destruct (step_terminal e (run es s) Hnp Hre) as (Hst' & _). congruence.
Qed.

Lemma won_lost_terminal_witness :
  let s := guess "T" (guess "C" (guess "A" (guess "E" (guess "R" (mount 1))))) in
  let es := [Guess "Q"; TogglePause; Guess "Z"; ToggleMute; TogglePause] in
  status (run es s) = status s ∧
  guessed (run es s) = guessed s ∧
  wrong (run es s) = wrong s ∧
  (∀ e, status (step e (run es s)) = playing → restarts e = true) ∧
  status (step Reset (run es s)) = playing ∧
  status (step NextWord (run es s)) = playing.
Proof.
  apply won_lost_terminal.
  - left. vm_compute. reflexivity.
  - repeat constructor.
Defined.

(** ** The word and the level index *)

Lemma wordAtLevel_mount rnd :
  (rnd < length WORDS)%nat → wordAtLevel (mount rnd).
Proof. intros Hr. apply Inv_wordAtLevel, Inv_mount, Hr. Qed.

(** Every action keeps the correspondence, whatever the rest of the state. *)
Lemma wordAtLevel_step e s : wordAtLevel s → wordAtLevel (step e s).
Proof.
  intros Hs. destruct e as [L | | | |].
  - destruct (decide (accepts L s)) as [Ha | Ha].
    + rewrite (step_Guess_accepted _ _ Ha). unfold wordAtLevel.
      destruct (winLossEffect_frame (onGuess L s))
        as (-> & _ & _ & _ & _ & _ & ->).
      rewrite (onGuess_accepted _ _ Ha). exact Hs.
    + rewrite (step_Guess_ignored _ _ Ha). exact Hs.
  - rewrite step_Reset. exact Hs.
  - rewrite step_NextWord. split; [apply nextWord_lookup |].
    split; [lia | eapply lookup_lt_Some, nextWord_lookup].
  - rewrite step_TogglePause. exact Hs.
  - rewrite step_ToggleMute. exact Hs.
Qed.

(** C10. In every state reachable once the mount effect has run,
    [targetWord] is the word of [WORDS] at [levelIndex], and
    [0 ≤ levelIndex < length WORDS]; every action ([guess], [reset],
    [nextWord], [togglePause], [toggleMute]) keeps it so. *)
Theorem targetWord_at_levelIndex (s : State) :
  reachable s →
  wordAtLevel s ∧ ∀ e, wordAtLevel (step e s).
Proof.
  intros Hr.
  assert (Hs : wordAtLevel s) by apply Inv_wordAtLevel, reachable_Inv, Hr.
  split; [exact Hs |]. intros e. apply wordAtLevel_step, Hs.
Qed.

Lemma targetWord_at_levelIndex_witness :
  let s := step NextWord (guess "Q" (mount 9)) in
  wordAtLevel s ∧ ∀ e, wordAtLevel (step e s).
Proof.
  apply targetWord_at_levelIndex.
  do 2 apply reachable_step. apply reachable_mount. simpl. lia.
Defined.

(** ** The displayed word *)

Lemma join_cons_cons sep (x y : string) l :
  join sep (x :: y :: l) = x +:+ sep +:+ join sep (y :: l).
Proof. reflexivity. Qed.

Lemma spaced_cons_cons (c c' : ascii) l :
  spaced (c :: c' :: l) = String c (String " " (spaced (c' :: l))).
Proof. reflexivity. Qed.

Lemma shown_char (g : gset string) (c : ascii) :
  (if bool_decide (String c EmptyString ∈ g) then String c EmptyString else "_")
  = String (shown g c) EmptyString.
Proof. unfold shown. case_bool_decide; reflexivity. Qed.

Lemma join_split_spaced (g : gset string) (w : string) :
  join " " ((λ ch, if bool_decide (ch ∈ g) then ch else "_") <$> split w)
  = spaced (shown g <$> String.list_ascii_of_string w).
Proof.
  induction w as [| c w IH]; [reflexivity |].
  destruct w as [| c' w].
  - simpl. apply shown_char.
  - cbn [split String.list_ascii_of_string fmap list_fmap] in IH |- *.
    rewrite join_cons_cons, spaced_cons_cons, IH, shown_char. reflexivity.
Qed.

Lemma get_list_ascii (w : string) (i : nat) :
  String.get i w = String.list_ascii_of_string w !! i.
Proof.
  revert i. induction w as [| c w IH]; intros [| i]; simpl; auto.
Qed.

Lemma length_list_ascii (w : string) :
  length (String.list_ascii_of_string w) = String.length w.
Proof. induction w as [| c w IH]; simpl; auto. Qed.

Lemma spaced_length (l : list ascii) :
  String.length (spaced l) = (2 * length l - 1)%nat.
Proof.
  induction l as [| c l IH]; [reflexivity |].
  destruct l as [| c' l]; [reflexivity |].
  cbn [spaced String.length] in *. rewrite IH. simpl. lia.
Qed.

Lemma spaced_get_even (l : list ascii) (i : nat) :
  String.get (2 * i) (spaced l) = l !! i.
Proof.
  revert i. induction l as [| c l IH]; intros i.
  - destruct i; reflexivity.
  - destruct i as [| i].
    + destruct l; reflexivity.
    + replace (2 * S i)%nat with (S (S (2 * i))) by lia.
      destruct l as [| c' l]; [destruct i; reflexivity |].
      cbn [spaced String.get]. rewrite IH. reflexivity.
Qed.

Lemma spaced_get_odd (l : list ascii) (i : nat) :
  (i + 1 < length l)%nat → String.get (2 * i + 1) (spaced l) = Some " "%char.
Proof.
  revert i. induction l as [| c l IH]; intros i Hi; [simpl in Hi; lia |].
  destruct l as [| c' l]; [simpl in Hi; lia |].
  destruct i as [| i]; [reflexivity |].
  replace (2 * S i + 1)%nat with (S (S (2 * i + 1))) by lia.
  cbn [spaced String.get]. apply IH. simpl in *. lia.
Qed.

(** C9. For a non-empty [targetWord] and any guessed set, the displayed
    word is the characters of [targetWord], one space between neighbours,
    each character shown as itself if it is in the guessed set and as an
    underscore otherwise: position [2 * i] holds the rendering of the
    [i]-th character, position [2 * i + 1] a space, and nothing follows the
    last character. *)
Theorem display_spaced (s : State) :
  targetWord s ≠ EmptyString →
  display s
    = spaced (shown (guessed s) <$> String.list_ascii_of_string (targetWord s)) ∧
  String.length (display s) = (2 * String.length (targetWord s) - 1)%nat ∧
  (∀ i c, String.get i (targetWord s) = Some c →
          String.get (2 * i) (display s) = Some (shown (guessed s) c)) ∧
  (∀ i, (i + 1 < String.length (targetWord s))%nat →
        String.get (2 * i + 1) (display s) = Some " "%char).
Proof.
  intros Hne.
  assert (Hd : display s = spaced (shown (guessed s)
                 <$> String.list_ascii_of_string (targetWord s))).
  { unfold display. destruct (targetWord s) as [| c w] eqn:Hw; [congruence |].
    cbn [falsy]. apply join_split_spaced. }
  rewrite Hd. split_and!.
  - reflexivity.
  - rewrite spaced_length, length_fmap, length_list_ascii. reflexivity.
  - intros i c Hi. rewrite spaced_get_even, list_lookup_fmap.
    rewrite <- get_list_ascii, Hi. reflexivity.
  - intros i Hi. apply spaced_get_odd.
    rewrite length_fmap, length_list_ascii. exact Hi.
Qed.

Lemma display_spaced_witness :
  let s := guess "T" (guess "Q" (guess "R" (mount 1))) in
  display s
    = spaced (shown (guessed s) <$> String.list_ascii_of_string (targetWord s)) ∧
  String.length (display s) = (2 * String.length (targetWord s) - 1)%nat ∧
  (∀ i c, String.get i (targetWord s) = Some c →
          String.get (2 * i) (display s) = Some (shown (guessed s) c)) ∧
  (∀ i, (i + 1 < String.length (targetWord s))%nat →
        String.get (2 * i + 1) (display s) = Some " "%char).
Proof. apply display_spaced. vm_compute. discriminate. Defined.

(** The examples of the specification, on the word "REACT" *)
Example react_won :
  let s := run [Guess "R"; Guess "E"; Guess "A"; Guess "C"; Guess "T"] (mount 1) in
  targetWord s = "REACT" ∧ status s = won ∧ wrong s = 0 ∧ display s = "R E A C T".
Proof. vm_compute. auto. Qed.

Example react_lost :
  let s := run [Guess "Q"; Guess "W"; Guess "X"; Guess "Y"; Guess "Z"; Guess "B"]
             (mount 1) in
  status s = lost ∧ wrong s = 6 ∧ display s = "_ _ _ _ _".
Proof. vm_compute. auto. Qed.

Example react_partial :
  display (run [Guess "R"; Guess "Q"; Guess "T"] (mount 1)) = "R _ _ _ T".
Proof. vm_compute. reflexivity. Qed.

(** * Further properties of the component *)

(** ** Letters of the word and the win test *)

Lemma split_elem_char (w ch : string) :
  ch ∈ split w → ∃ c, ch = String c EmptyString.
Proof.
  induction w as [| a w IH]; simpl.
  - rewrite elem_of_nil. tauto.
  - rewrite elem_of_cons. intros [-> | H]; eauto.
Qed.

Lemma split_includes (w ch : string) : ch ∈ split w → includes w ch = true.
Proof.
  intros H. destruct (split_elem_char w ch H) as [c ->].
  apply includes_letter, H.
Qed.

Lemma includes_false_not_split (w L : string) :
  includes w L = false → L ∉ split w.
Proof. intros Hf Hin. rewrite (split_includes _ _ Hin) in Hf. discriminate. Qed.

Lemma forallb_guessed_add (g : gset string) (L : string) (l : list string) :
  L ∉ l →
  forallb (λ ch, bool_decide (ch ∈ g ∪ {[ L ]})) l
  = forallb (λ ch, bool_decide (ch ∈ g)) l.
Proof.
  induction l as [| ch l IH]; intros Hl; [reflexivity |].
  apply not_elem_of_cons in Hl as [Hne Hl]. simpl. rewrite (IH Hl). f_equal.
  apply bool_decide_ext. rewrite elem_of_union, elem_of_singleton.
  split; [intros [? | ?] |]; [assumption | congruence | auto].
Qed.

Lemma hasWon_onGuess_absent L s :
  accepts L s → includes (targetWord s) L = false →
  hasWon (onGuess L s) = hasWon s.
Proof.
  intros Ha Hin. rewrite (onGuess_accepted _ _ Ha). unfold hasWon. simpl.
  apply forallb_guessed_add, includes_false_not_split, Hin.
Qed.

Lemma size_filter_add (P : string → Prop) `{!∀ x, Decision (P x)}
    (g : gset string) (L : string) :
  L ∉ g →
  size (filter P (g ∪ {[ L ]}))
  = (size (filter P g) + (if decide (P L) then 1 else 0))%nat.
Proof.
  intros HL. rewrite (filter_union_L (C:=gset string) P), size_union.
  - destruct (decide (P L)) as [HP | HP].
    + rewrite (filter_singleton_True_L (C:=gset string) P L HP), size_singleton.
      reflexivity.
    + rewrite (filter_singleton_False_L (C:=gset string) P L HP), size_empty.
      reflexivity.
  - intros x Hx Hx'. apply elem_of_filter in Hx as [_ Hx].
    apply elem_of_filter in Hx' as [_ Hx']. apply elem_of_singleton in Hx'.
    subst x. exact (HL Hx).
Qed.

(** ** The second invariant *)

Lemma RoundInv_fresh s :
  showSidebar s = isPaused s → guessed s = ∅ → wrong s = 0 → RoundInv s.
Proof.
  intros Hsb Hg Hw. split; [exact Hsb |].
  unfold wrongLetters. rewrite Hg, Hw.
  assert (He : filter (λ L, includes (targetWord s) L = false)
                 (∅ : gset string) = ∅)
    by apply leibniz_equiv, filter_empty.
  rewrite He, size_empty. reflexivity.
Qed.

Lemma RoundInv_mount rnd : (rnd < length WORDS)%nat → RoundInv (mount rnd).
Proof.
  intros Hr. rewrite (mount_initEffect _ Hr). apply RoundInv_fresh; reflexivity.
Qed.

Lemma RoundInv_handle e s : RoundInv s → RoundInv (handle e s).
Proof.
  intros [Hsb Hc]. destruct e as [L | | | |]; simpl.
  - destruct (decide (accepts L s)) as [Ha | Ha];
      [| rewrite (onGuess_ignored _ _ Ha); split; assumption].
    rewrite (onGuess_accepted _ _ Ha). split; simpl.
    + rewrite Hsb. apply Ha.
    + unfold wrongLetters. simpl.
      rewrite size_filter_add by apply Ha. rewrite Hc. unfold wrongLetters.
      destruct (includes (targetWord s) L); simpl; lia.
  - apply RoundInv_fresh; reflexivity.
  - apply RoundInv_fresh; reflexivity.
  - split; [reflexivity | exact Hc].
  - split; [exact Hsb | exact Hc].
Qed.

Lemma RoundInv_commit s : RoundInv s → RoundInv (winLossEffect s).
Proof.
  intros [Hsb Hc].
  destruct (winLossEffect_frame s) as (Ht & Hg & Hw & Hp & _ & Hs & _).
  split; [congruence |]. unfold wrongLetters. rewrite Hw, Ht, Hg. exact Hc.
Qed.

Lemma reachable_RoundInv s : reachable s → RoundInv s.
Proof.
  induction 1 as [rnd Hr | e s _ IH | s _ IH];
    [apply RoundInv_mount, Hr | apply RoundInv_handle, IH
    | apply RoundInv_commit, IH].
Qed.

(** ** The first round *)

(** X1. The mount effect starts a round on the word at the random position:
    [levelIndex] is that position (the fallback [0] for a word that
    [indexOf] does not find is never taken), and the round is fresh. *)
Theorem mount_round (rnd : nat) :
  (rnd < length WORDS)%nat →
  WORDS !! rnd = Some (targetWord (mount rnd)) ∧
  levelIndex (mount rnd) = rnd ∧
  guessed (mount rnd) = ∅ ∧
  wrong (mount rnd) = 0 ∧
  status (mount rnd) = playing ∧
  isPaused (mount rnd) = false ∧
  isMuted (mount rnd) = false ∧
  showSidebar (mount rnd) = false.
Proof.
  intros Hr. rewrite (mount_initEffect _ Hr).
  pose proof (pickWord_rnd_lookup _ Hr) as Hw.
  unfold initEffect. cbn [targetWord levelIndex guessed wrong status isPaused
                            isMuted showSidebar].
  rewrite (indexOf_lookup _ _ _ WORDS_NoDup Hw). split_and!; auto.
Qed.

Lemma mount_round_witness :
  WORDS !! 7%nat = Some (targetWord (mount 7)) ∧
  levelIndex (mount 7) = 7%nat ∧
  guessed (mount 7) = ∅ ∧
  wrong (mount 7) = 0 ∧
  status (mount 7) = playing ∧
  isPaused (mount 7) = false ∧
  isMuted (mount 7) = false ∧
  showSidebar (mount 7) = false.
Proof. apply mount_round. simpl. lia. Defined.

(** ** Pause and sidebar *)

(** X2. In every reachable state the sidebar is open exactly when the game is
    paused, so the pause button reads "Resume game" and the sidebar shows
    its buttons exactly then; under the pause overlay the sidebar is open
    and every key is disabled. *)
Theorem sidebar_follows_pause (s : State) :
  reachable s →
  showSidebar s = isPaused s ∧
  (pauseButtonLabel s = "Resume game" ↔ isPaused s = true) ∧
  (sidebarButtons s ≠ [] ↔ isPaused s = true) ∧
  (pauseOverlay s = true →
   sidebarButtons s ≠ [] ∧ ∀ l, keyDisabled l s = true).
Proof.
  intros Hr. destruct (reachable_RoundInv s Hr) as [Hsb _].
  unfold pauseButtonLabel, sidebarButtons, pauseOverlay, keyDisabled.
  rewrite Hsb.
  destruct (isPaused s); split_and!; try reflexivity;
    try (split; intros H; congruence); try discriminate.
  intros _. split; [discriminate |]. intros l. apply orb_true_r.
Qed.

Lemma sidebar_follows_pause_witness :
  let s := step TogglePause (guess "R" (mount 1)) in
  showSidebar s = isPaused s ∧
  (pauseButtonLabel s = "Resume game" ↔ isPaused s = true) ∧
  (sidebarButtons s ≠ [] ↔ isPaused s = true) ∧
  (pauseOverlay s = true →
   sidebarButtons s ≠ [] ∧ ∀ l, keyDisabled l s = true).
Proof.
  apply sidebar_follows_pause.
  do 2 apply reachable_step. apply reachable_mount. simpl. lia.
Defined.

Lemma step_TogglePause_twice s :
  showSidebar s = isPaused s → step TogglePause (step TogglePause s) = s.
Proof.
  intros Hsb. rewrite !step_TogglePause. unfold togglePause. simpl.
  destruct s as [w g n st p m sb li]. simpl in *. subst sb.
  rewrite negb_involutive. reflexivity.
Qed.

(** X3. Pausing and resuming gives back the state the game was in. *)
Theorem togglePause_twice (s : State) :
  reachable s → step TogglePause (step TogglePause s) = s.
Proof.
  intros Hr. apply step_TogglePause_twice, (ri_sidebar s), reachable_RoundInv, Hr.
Qed.

Lemma togglePause_twice_witness :
  let s := guess "Q" (guess "R" (mount 1)) in
  step TogglePause (step TogglePause s) = s.
Proof.
  apply togglePause_twice.
  do 2 apply reachable_step. apply reachable_mount. simpl. lia.
Defined.

Lemma run_app es es' s : run (es ++ es') s = run es' (run es s).
Proof. apply foldl_app. Qed.

Lemma run_guesses_paused es s :
  isPaused s = true → Forall (λ e, isGuess e = true) es → run es s = s.
Proof.
  intros Hp Hes. induction Hes as [| e es He _ IH]; [reflexivity |].
  destruct e as [L | | | |]; try discriminate. simpl.
  rewrite step_Guess_ignored; [exact IH |].
  intros (_ & Hq & _). congruence.
Qed.

(** X4. Whatever keys are tried while the game is paused, resuming gives
    back the state from before the pause. *)
Theorem pause_guesses_resume (s : State) (es : list Event) :
  reachable s → isPaused s = false → Forall (λ e, isGuess e = true) es →
  run (TogglePause :: es ++ [TogglePause]) s = s.
Proof.
  intros Hr Hp Hes.
  change (run (TogglePause :: es ++ [TogglePause]) s)
    with (run (es ++ [TogglePause]) (step TogglePause s)).
  rewrite run_app, (run_guesses_paused es).
  - apply (step_TogglePause_twice s), (ri_sidebar s), reachable_RoundInv, Hr.
  - rewrite step_TogglePause. simpl. rewrite Hp. reflexivity.
  - exact Hes.
Qed.

Lemma pause_guesses_resume_witness :
  let s := guess "R" (mount 1) in
  run (TogglePause :: [Guess "E"; Guess "Q"; Guess "R"] ++ [TogglePause]) s = s.
Proof.
  apply pause_guesses_resume.
  - apply reachable_step, reachable_mount. simpl. lia.
  - vm_compute. reflexivity.
  - repeat constructor.
Defined.

(** ** Mute *)

Lemma deps_toggleMute s : deps (toggleMute s) = deps s.
Proof. reflexivity. Qed.

Lemma winLossEffect_toggleMute s :
  winLossEffect (toggleMute s) = toggleMute (winLossEffect s).
Proof.
  unfold winLossEffect. change (hasWon (toggleMute s)) with (hasWon s).
  cbn [toggleMute targetWord status wrong].
  repeat match goal with |- context [if ?b then _ else _] => destruct b end;
    reflexivity.
Qed.

Lemma handle_toggleMute e s :
  handle e (toggleMute s) = toggleMute (handle e s).
Proof.
  destruct e as [L | | | |]; try reflexivity.
  simpl. unfold onGuess. simpl.
  repeat match goal with |- context [if ?b then _ else _] => destruct b end;
    reflexivity.
Qed.

Lemma rerender_toggleMute prev next :
  rerender (toggleMute prev) (toggleMute next) = toggleMute (rerender prev next).
Proof.
  unfold rerender. rewrite !deps_toggleMute.
  destruct (bool_decide _); [reflexivity | apply winLossEffect_toggleMute].
Qed.

(** X5. Muting takes no part in the game: an event gives the same state
    whether the sound is toggled before it or after it. *)
Theorem toggleMute_commutes (e : Event) (s : State) :
  step e (step ToggleMute s) = step ToggleMute (step e s).
Proof.
  rewrite !step_ToggleMute. unfold step.
  rewrite handle_toggleMute, !settle_rerender. apply rerender_toggleMute.
Qed.

Lemma isMuted_step e s :
  isMuted (step e s) = xorb (isMuted s) (isToggleMute e).
Proof.
  destruct e as [L | | | |]; simpl.
  - destruct (decide (accepts L s)) as [Ha | Ha].
    + rewrite (step_Guess_accepted _ _ Ha).
      destruct (winLossEffect_frame (onGuess L s)) as (_ & _ & _ & _ & -> & _).
      rewrite (onGuess_accepted _ _ Ha). simpl. apply eq_sym, xorb_false_r.
    + rewrite (step_Guess_ignored _ _ Ha). apply eq_sym, xorb_false_r.
  - rewrite step_Reset. simpl. apply eq_sym, xorb_false_r.
  - rewrite step_NextWord. simpl. apply eq_sym, xorb_false_r.
  - rewrite step_TogglePause. simpl. apply eq_sym, xorb_false_r.
  - rewrite step_ToggleMute. simpl. apply eq_sym, xorb_true_r.
Qed.

(** X6. After any sequence of events the sound is muted or not by the
    parity of the mute toggles in it: no other event, [reset] and
    [nextWord] included, touches the mute flag. *)
Theorem isMuted_parity (es : list Event) (s : State) :
  isMuted (run es s)
  = xorb (isMuted s) (Nat.odd (length (filter (λ e, isToggleMute e = true) es))).
Proof.
  revert s. induction es as [| e es IH]; intros s.
  - simpl. apply eq_sym, xorb_false_r.
  - change (run (e :: es) s) with (run es (step e s)).
    rewrite IH, isMuted_step, filter_cons.
    destruct e; simpl; rewrite ?xorb_false_r; try reflexivity.
    rewrite Nat.odd_succ, <- Nat.negb_odd.
    destruct (isMuted s), (Nat.odd _); reflexivity.
Qed.

(** ** The counter and the drawing *)

(** X7. In every reachable state [wrong] is the number of guessed letters that
    the word does not contain. *)
Theorem wrong_counts_wrongLetters (s : State) :
  reachable s → wrong s = Z.of_nat (size (wrongLetters s)).
Proof. intros Hr. apply (ri_count s), reachable_RoundInv, Hr. Qed.

Lemma wrong_counts_wrongLetters_witness :
  let s := guess "Z" (guess "E" (guess "Q" (mount 1))) in
  wrong s = Z.of_nat (size (wrongLetters s)).
Proof.
  apply wrong_counts_wrongLetters.
  do 3 apply reachable_step. apply reachable_mount. simpl. lia.
Defined.

Lemma exec_cons a acts s : exec (a :: acts) s = exec acts (act a s).
Proof. reflexivity. Qed.

(** Wrong letters handled one after the other, no status committed between
    them *)
Lemma exec_wrong_guesses l s :
  status s = playing → isPaused s = false → NoDup l →
  (∀ L, L ∈ l → (L ∉ guessed s) ∧ includes (targetWord s) L = false) →
  status (exec (Handle <$> (Guess <$> l)) s) = playing ∧
  isPaused (exec (Handle <$> (Guess <$> l)) s) = false ∧
  targetWord (exec (Handle <$> (Guess <$> l)) s) = targetWord s ∧
  hasWon (exec (Handle <$> (Guess <$> l)) s) = hasWon s ∧
  wrong (exec (Handle <$> (Guess <$> l)) s) = wrong s + Z.of_nat (length l).
Proof.
  revert s. induction l as [| L l IH]; intros s Hpl Hp Hnd Hl.
  - simpl. split_and!; auto. lia.
  - apply NoDup_cons in Hnd as [HL Hnd].
    destruct (Hl L) as [HLg HLw]; [left |].
    assert (Ha : accepts L s) by (unfold accepts; auto).
    rewrite !fmap_cons, exec_cons. cbn [act handle].
    pose proof (hasWon_onGuess_absent L s Ha HLw) as Hh.
    revert Hh. rewrite (onGuess_accepted _ _ Ha), HLw. intros Hh.
    match goal with |- context [exec _ ?t] => set (t1 := t) in * end.
    destruct (IH t1) as (H1 & H2 & H3 & H4 & H5);
      [reflexivity | reflexivity | exact Hnd | |].
    + intros M HM. destruct (Hl M) as [HMg HMw]; [right; exact HM |].
      subst t1. simpl. split; [| exact HMw].
      rewrite elem_of_union, elem_of_singleton. intros [? | ->]; auto.
    + rewrite H1, H2, H3, H4, H5, Hh. subst t1. simpl.
      split_and!; auto. lia.
Qed.

(** X8. [onGuess] does not look at the counter. As long as the status that
    the effect sets is not committed, every new letter that the word does
    not contain adds one to [wrong], past [MAX_WRONG] too; when the status
    is committed the round is lost, if its word was not complete, with the
    counter where the guesses left it. *)
Theorem wrong_passes_MAX_WRONG (l : list string) (s : State) :
  reachable s → status s = playing → isPaused s = false → NoDup l →
  (∀ L, L ∈ l → (L ∉ guessed s) ∧ includes (targetWord s) L = false) →
  reachable (exec (Handle <$> (Guess <$> l)) s) ∧
  status (exec (Handle <$> (Guess <$> l)) s) = playing ∧
  wrong (exec (Handle <$> (Guess <$> l)) s) = wrong s + Z.of_nat (length l) ∧
  (MAX_WRONG ≤ wrong s + Z.of_nat (length l) → ¬ fullyGuessed s →
   status (winLossEffect (exec (Handle <$> (Guess <$> l)) s)) = lost ∧
   wrong (winLossEffect (exec (Handle <$> (Guess <$> l)) s))
   = wrong s + Z.of_nat (length l)).
Proof.
  intros Hr Hpl Hp Hnd Hl.
  destruct (exec_wrong_guesses l s Hpl Hp Hnd Hl) as (H1 & H2 & H3 & H4 & H5).
  pose proof (reachable_exec (Handle <$> (Guess <$> l)) s Hr) as Hr'.
  split_and!; [exact Hr' | exact H1 | exact H5 |].
  intros Hle Hnf. apply hasWon_not_fullyGuessed in Hnf.
  rewrite (commit_status _ (reachable_Inv _ Hr')).
  destruct (winLossEffect_frame (exec (Handle <$> (Guess <$> l)) s))
    as (_ & _ & -> & _).
  unfold verdict. rewrite H4, Hnf, H5, bool_decide_eq_true_2 by exact Hle.
  auto.
Qed.

Lemma wrong_passes_MAX_WRONG_witness :
  let s := mount 1 in
  let l := ["Q"; "W"; "X"; "Y"; "Z"; "B"; "K"] in
  reachable (exec (Handle <$> (Guess <$> l)) s) ∧
  status (exec (Handle <$> (Guess <$> l)) s) = playing ∧
  wrong (exec (Handle <$> (Guess <$> l)) s) = wrong s + Z.of_nat (length l) ∧
  (MAX_WRONG ≤ wrong s + Z.of_nat (length l) → ¬ fullyGuessed s →
   status (winLossEffect (exec (Handle <$> (Guess <$> l)) s)) = lost ∧
   wrong (winLossEffect (exec (Handle <$> (Guess <$> l)) s))
   = wrong s + Z.of_nat (length l)).
Proof.
  apply wrong_passes_MAX_WRONG.
  - apply reachable_mount. simpl. lia.
  - vm_compute. reflexivity.
  - vm_compute. reflexivity.
  - apply (bool_decide_unpack (NoDup _)). vm_compute. exact I.
  - apply Forall_forall. apply (bool_decide_unpack _). vm_compute. exact I.
Defined.

(** On "REACT": seven wrong letters handled before the status is committed
    leave a lost round with the counter at seven. *)
Example lost_with_seven_wrong :
  let s := exec (Handle <$> (Guess <$> ["Q"; "W"; "X"; "Y"; "Z"; "B"; "K"]))
             (mount 1) in
  status (winLossEffect s) = lost ∧ wrong (winLossEffect s) = 7 ∧
  length (HangmanSVG (wrong (winLossEffect s))) = 10%nat.
Proof. vm_compute. auto. Qed.

Lemma HangmanSVG_take (w : Z) :
  HangmanSVG w = gallows ++ take (Z.to_nat w) bodyParts.
Proof.
  assert (Hc : w ≤ 0 ∨ w = 1 ∨ w = 2 ∨ w = 3 ∨ w = 4 ∨ w = 5 ∨ 6 ≤ w) by lia.
  destruct Hc as [H | [-> | [-> | [-> | [-> | [-> | H]]]]]]; try reflexivity.
  - rewrite (Z2Nat.nonpos w H). unfold HangmanSVG.
    repeat match goal with
           | |- context [w >? ?k] => destruct (Z.gtb_spec w k); [lia |]
           end.
    reflexivity.
  - rewrite take_ge by (simpl; lia). unfold HangmanSVG.
    repeat match goal with
           | |- context [w >? ?k] => destruct (Z.gtb_spec w k); [| lia]
           end.
    reflexivity.
Qed.

(** X9. The drawing is the gallows followed by the first [wrong] body parts
    (none for a count of zero or less, all six from six on), so a higher
    count only ever adds parts after those already drawn. *)
Theorem HangmanSVG_grows (w w' : Z) :
  w ≤ w' →
  HangmanSVG w = gallows ++ take (Z.to_nat w) bodyParts ∧
  HangmanSVG w `prefix_of` HangmanSVG w' ∧
  length (HangmanSVG w) = (4 + Z.to_nat (Z.min (Z.max w 0) 6))%nat.
Proof.
  intros Hle. split; [apply HangmanSVG_take |]. split.
  - rewrite !HangmanSVG_take. apply prefix_app.
    replace (Z.to_nat w) with (Z.to_nat w `min` Z.to_nat w')%nat by lia.
    rewrite <- take_take. apply prefix_take.
  - rewrite HangmanSVG_take, length_app, length_take. simpl. lia.
Qed.

Lemma HangmanSVG_grows_witness :
  HangmanSVG 2 = gallows ++ take (Z.to_nat 2) bodyParts ∧
  HangmanSVG 2 `prefix_of` HangmanSVG 5 ∧
  length (HangmanSVG 2) = (4 + Z.to_nat (Z.min (Z.max 2 0) 6))%nat.
Proof. apply HangmanSVG_grows. lia. Defined.

(** X10. In every reachable state the drawing shows as many body parts as
    there are wrong letters among the guesses, six at most; the figure is
    complete exactly when the counter has reached [MAX_WRONG], so whenever
    the round is lost, and for a word that is not fully guessed, where the
    win/loss effect has nothing left to change, only then. *)
Theorem figure_follows_wrong (s : State) :
  reachable s →
  HangmanSVG (wrong s) = gallows ++ take (size (wrongLetters s)) bodyParts ∧
  length (HangmanSVG (wrong s)) = (4 + size (wrongLetters s) `min` 6)%nat ∧
  (HangmanSVG (wrong s) = gallows ++ bodyParts ↔ MAX_WRONG ≤ wrong s) ∧
  (status s = lost → HangmanSVG (wrong s) = gallows ++ bodyParts) ∧
  (winLossEffect s = s → ¬ fullyGuessed s →
   (HangmanSVG (wrong s) = gallows ++ bodyParts ↔ status s = lost)).
Proof.
  intros Hr. pose proof (reachable_Inv s Hr) as HI.
  pose proof (ri_count s (reachable_RoundInv s Hr)) as Hc.
  assert (Hn : Z.to_nat (wrong s) = size (wrongLetters s)) by lia.
  assert (Hfull : HangmanSVG (wrong s) = gallows ++ bodyParts
                  ↔ MAX_WRONG ≤ wrong s).
  { rewrite HangmanSVG_take, Hn. unfold MAX_WRONG. split.
    - intros Heq. apply app_inv_head in Heq.
      apply (f_equal length) in Heq. rewrite length_take in Heq.
      simpl in Heq. lia.
    - intros Hw. rewrite take_ge by (simpl; lia). reflexivity. }
  split_and!.
  - rewrite HangmanSVG_take, Hn. reflexivity.
  - rewrite HangmanSVG_take, Hn, length_app, length_take. simpl. lia.
  - exact Hfull.
  - intros Hl. apply Hfull, (inv_lost s HI Hl).
  - intros Hs Hnf. rewrite Hfull, (settled_status s HI Hs). unfold verdict.
    apply hasWon_not_fullyGuessed in Hnf. rewrite Hnf.
    case_bool_decide; split; intros; try congruence; try lia.
Qed.

Lemma figure_follows_wrong_witness :
  let s := exec (Handle <$> (Guess <$> ["Q"; "W"; "X"; "Y"; "Z"; "B"; "K"]))
             (mount 1) in
  HangmanSVG (wrong s) = gallows ++ take (size (wrongLetters s)) bodyParts ∧
  length (HangmanSVG (wrong s)) = (4 + size (wrongLetters s) `min` 6)%nat ∧
  (HangmanSVG (wrong s) = gallows ++ bodyParts ↔ MAX_WRONG ≤ wrong s) ∧
  (status s = lost → HangmanSVG (wrong s) = gallows ++ bodyParts) ∧
  (winLossEffect s = s → ¬ fullyGuessed s →
   (HangmanSVG (wrong s) = gallows ++ bodyParts ↔ status s = lost)).
Proof.
  apply figure_follows_wrong.
  apply reachable_exec, reachable_mount. simpl. lia.
Defined.

(** ** Sequences of guesses, whenever the status is committed *)

Lemma events_Handle e acts : events (Handle e :: acts) = e :: events acts.
Proof. reflexivity. Qed.

Lemma events_Commit acts : events (Commit :: acts) = events acts.
Proof. reflexivity. Qed.

(** Commits alone do what one commit does. *)
Lemma exec_commits acts s :
  events acts = [] →
  winLossEffect (exec acts s) = winLossEffect s ∧
  wrong (exec acts s) = wrong s.
Proof.
  revert s. induction acts as [| a acts IH]; intros s He; [auto |].
  destruct a as [e |]; [discriminate |].
  rewrite events_Commit in He. rewrite exec_cons. cbn [act].
  destruct (IH (winLossEffect s) He) as [-> ->].
  split; [apply winLossEffect_idem | apply winLossEffect_frame].
Qed.

Lemma won_guessed s ch :
  Inv s → status s = won → ch ∈ split (targetWord s) → ch ∈ guessed s.
Proof.
  intros HI Hw. pose proof (inv_won s HI Hw) as Hh.
  apply hasWon_fullyGuessed in Hh. apply Hh.
Qed.

(** Characters of the word, guessed in a round that is not lost and whose
    counter is below [MAX_WRONG], with commits of the status anywhere *)
Lemma exec_in_word acts l s :
  Inv s → isPaused s = false → status s ≠ lost → wrong s < MAX_WRONG →
  (∀ ch, ch ∈ l → ch ∈ split (targetWord s)) →
  events acts = Guess <$> l →
  Inv (exec acts s) ∧
  targetWord (exec acts s) = targetWord s ∧
  wrong (exec acts s) = wrong s ∧
  guessed s ⊆ guessed (exec acts s) ∧
  (∀ ch, ch ∈ l → ch ∈ guessed (exec acts s)).
Proof.
  revert l s. induction acts as [| a acts IH]; intros l s HI Hp Hnl Hlt Hl He.
  - destruct l; [| discriminate]. simpl. split_and!; auto.
    intros ch Hch. apply elem_of_nil in Hch. tauto.
  - rewrite exec_cons. destruct a as [e |].
    + rewrite events_Handle in He. destruct l as [| ch l]; [discriminate |].
      rewrite fmap_cons in He. injection He as -> He. cbn [act handle].
      assert (Hch : ch ∈ split (targetWord s)) by (apply Hl; left).
      assert (Hstep : isPaused (onGuess ch s) = false ∧
                      status (onGuess ch s) ≠ lost ∧
                      wrong (onGuess ch s) = wrong s ∧
                      targetWord (onGuess ch s) = targetWord s ∧
                      guessed s ⊆ guessed (onGuess ch s) ∧
                      ch ∈ guessed (onGuess ch s)).
      { destruct (decide (accepts ch s)) as [Ha | Ha].
        - rewrite (onGuess_accepted _ _ Ha). simpl.
          rewrite (split_includes _ _ Hch).
          split_and!; auto; try discriminate.
          + apply union_subseteq_l.
          + apply elem_of_union_r, elem_of_singleton. reflexivity.
        - rewrite (onGuess_ignored _ _ Ha). split_and!; auto.
          destruct (decide (ch ∈ guessed s)) as [Hin | Hin]; [exact Hin |].
          destruct (status_cases s HI) as [Hw | [Hlo | Hpl]].
          + apply won_guessed; assumption.
          + contradiction.
          + exfalso. apply Ha. unfold accepts. auto. }
      destruct Hstep as (Hp' & Hnl' & Hw' & Ht' & Hsub & Hin).
      destruct (IH l (onGuess ch s)) as (HI'' & Ht'' & Hw'' & Hsub'' & Hl'');
        [apply (Inv_handle (Guess ch)), HI | exact Hp' | exact Hnl' | lia
        | | exact He |].
      * intros c Hc. rewrite Ht'. apply Hl. right. exact Hc.
      * split_and!; [exact HI'' | congruence | congruence | |].
        -- etrans; eassumption.
        -- intros c Hc. apply elem_of_cons in Hc as [-> | Hc];
             [apply Hsub'', Hin | apply Hl'', Hc].
    + rewrite events_Commit in He. cbn [act].
      destruct (winLossEffect_frame s) as (Ht & Hg & Hw & Hpa & _).
      destruct (IH l (winLossEffect s)) as (HI'' & Ht'' & Hw'' & Hsub'' & Hl'');
        [apply Inv_commit, HI | congruence | | lia | | exact He |].
      * rewrite (commit_status s HI). unfold verdict.
        destruct (hasWon s); [discriminate |].
        rewrite bool_decide_eq_false_2 by lia. discriminate.
      * intros c Hc. rewrite Ht. apply Hl, Hc.
      * split_and!; [exact HI'' | congruence | congruence | | exact Hl''].
        rewrite <- Hg. exact Hsub''.
Qed.

(** X11. A round in play, not paused and with its counter below
    [MAX_WRONG], can always be won: when the characters of the word are
    guessed one after the other, with the status committed between the
    guesses or not, the round is [won] once the status is committed, and
    the counter of wrong guesses is where it was. *)
Theorem word_can_be_won (s : State) (acts : list Action) :
  reachable s → status s = playing → isPaused s = false →
  wrong s < MAX_WRONG →
  events acts = Guess <$> split (targetWord s) →
  status (winLossEffect (exec acts s)) = won ∧
  wrong (exec acts s) = wrong s ∧
  targetWord (exec acts s) = targetWord s.
Proof.
  intros Hr Hpl Hp Hlt He.
  destruct (exec_in_word acts (split (targetWord s)) s)
    as (HI & Ht & Hw & _ & Hall);
    [apply reachable_Inv, Hr | exact Hp | congruence | exact Hlt | auto
    | exact He |].
  split_and!; [| exact Hw | exact Ht].
  rewrite (commit_status _ HI). unfold verdict.
  assert (Hh : hasWon (exec acts s) = true).
  { apply hasWon_fullyGuessed. intros ch Hch. rewrite Ht in Hch. auto. }
  rewrite Hh. reflexivity.
Qed.

Lemma word_can_be_won_witness :
  let s := guess "C" (guess "Q" (mount 1)) in
  let acts := [Handle (Guess "R"); Handle (Guess "E"); Commit;
               Handle (Guess "A"); Handle (Guess "C"); Handle (Guess "T")] in
  status (winLossEffect (exec acts s)) = won ∧
  wrong (exec acts s) = wrong s ∧
  targetWord (exec acts s) = targetWord s.
Proof.
  apply word_can_be_won.
  - do 2 apply reachable_step. apply reachable_mount. simpl. lia.
  - vm_compute. reflexivity.
  - vm_compute. reflexivity.
  - vm_compute. reflexivity.
  - vm_compute. reflexivity.
Defined.

Lemma commit_in_play s :
  status s = playing → hasWon s = false → wrong s < MAX_WRONG →
  winLossEffect s = s.
Proof.
  intros Hp Hh Hlt. unfold winLossEffect.
  rewrite Hh, (bool_decide_eq_false_2 (MAX_WRONG ≤ wrong s)) by lia.
  destruct (_ || _); reflexivity.
Qed.

(** New letters that the word does not contain, as many as the counter is
    short of [MAX_WRONG], with commits of the status anywhere *)
Lemma exec_absent acts l s :
  falsy (targetWord s) = false → status s = playing → isPaused s = false →
  hasWon s = false → NoDup l →
  (∀ L, L ∈ l → (L ∉ guessed s) ∧ includes (targetWord s) L = false) →
  Z.of_nat (length l) = MAX_WRONG - wrong s →
  events acts = Guess <$> l →
  status (winLossEffect (exec acts s)) = lost ∧
  wrong (exec acts s) = MAX_WRONG.
Proof.
  revert l s.
  induction acts as [| a acts IH]; intros l s Hne Hpl Hp Hh Hnd Hl Hlen He.
  - destruct l; [| discriminate]. simpl in *.
    rewrite (winLossEffect_playing s Hne Hpl), Hh.
    rewrite bool_decide_eq_true_2 by lia. split; [reflexivity | lia].
  - rewrite exec_cons. destruct a as [e |].
    + rewrite events_Handle in He. destruct l as [| L l]; [discriminate |].
      rewrite fmap_cons in He. injection He as -> He. cbn [act handle].
      apply NoDup_cons in Hnd as [HL Hnd].
      destruct (Hl L) as [HLg HLw]; [left |].
      assert (Ha : accepts L s) by (unfold accepts; auto).
      pose proof (hasWon_onGuess_absent L s Ha HLw) as Hh'.
      rewrite length_cons in Hlen.
      revert Hh'. rewrite (onGuess_accepted _ _ Ha), HLw. intros Hh'.
      apply (IH l); simpl; auto.
      * congruence.
      * intros M HM. destruct (Hl M) as [HMg HMw]; [right; exact HM |].
        split; [| exact HMw].
        rewrite elem_of_union, elem_of_singleton. intros [? | ->]; auto.
      * lia.
    + rewrite events_Commit in He. cbn [act].
      destruct l as [| L l].
      * simpl in Hlen.
        destruct (exec_commits acts (winLossEffect s) He) as [-> ->].
        rewrite winLossEffect_idem, (winLossEffect_playing s Hne Hpl), Hh.
        rewrite bool_decide_eq_true_2 by lia.
        destruct (winLossEffect_frame s) as (_ & _ & -> & _).
        split; [reflexivity | lia].
      * rewrite length_cons in Hlen.
        rewrite (commit_in_play s Hpl Hh) by lia.
        apply (IH (L :: l)); auto.
Qed.

(** X12. From a round in play that is not paused and whose word is not
    complete, distinct new letters that the word does not contain, as many
    as the counter is short of [MAX_WRONG], lose the round: with the status
    committed between the guesses or not, the round is [lost] once the
    status is committed, with the counter at [MAX_WRONG]. *)
Theorem wrong_letters_lose (l : list string) (s : State)
    (acts : list Action) :
  reachable s → status s = playing → isPaused s = false →
  ¬ fullyGuessed s → NoDup l →
  (∀ L, L ∈ l → (L ∉ guessed s) ∧ includes (targetWord s) L = false) →
  Z.of_nat (length l) = MAX_WRONG - wrong s →
  events acts = Guess <$> l →
  status (winLossEffect (exec acts s)) = lost ∧
  wrong (exec acts s) = MAX_WRONG.
Proof.
  intros Hr Hpl Hp Hnf Hnd Hl Hlen He.
  apply (exec_absent acts l s); auto.
  - apply Inv_word_nonempty, reachable_Inv, Hr.
  - apply hasWon_not_fullyGuessed, Hnf.
Qed.

Lemma wrong_letters_lose_witness :
  let s := guess "E" (guess "Q" (mount 1)) in
  let l := ["W"; "X"; "Y"; "Z"; "B"] in
  let acts := [Handle (Guess "W"); Commit; Handle (Guess "X");
               Handle (Guess "Y"); Handle (Guess "Z"); Commit;
               Handle (Guess "B")] in
  status (winLossEffect (exec acts s)) = lost ∧
  wrong (exec acts s) = MAX_WRONG.
Proof.
  apply (wrong_letters_lose ["W"; "X"; "Y"; "Z"; "B"]).
  - do 2 apply reachable_step. apply reachable_mount. simpl. lia.
  - vm_compute. reflexivity.
  - vm_compute. reflexivity.
  - apply hasWon_not_fullyGuessed. vm_compute. reflexivity.
  - apply (bool_decide_unpack (NoDup _)). vm_compute. exact I.
  - apply Forall_forall. apply (bool_decide_unpack _). vm_compute. exact I.
  - vm_compute. reflexivity.
  - vm_compute. reflexivity.
Defined.

Lemma step_keeps_round e s :
  restarts e = false →
  guessed s ⊆ guessed (step e s) ∧ wrong s ≤ wrong (step e s) ∧
  targetWord (step e s) = targetWord s ∧ levelIndex (step e s) = levelIndex s.
Proof.
  intros He. destruct e as [L | | | |]; try discriminate.
  - destruct (decide (accepts L s)) as [Ha | Ha].
    + rewrite (step_Guess_accepted _ _ Ha).
      destruct (winLossEffect_frame (onGuess L s))
        as (-> & -> & -> & _ & _ & _ & ->).
      rewrite (onGuess_accepted _ _ Ha). simpl.
      split_and!; try reflexivity; [apply union_subseteq_l |].
      destruct (includes (targetWord s) L); lia.
    + rewrite (step_Guess_ignored _ _ Ha). split_and!; auto. lia.
  - rewrite step_TogglePause. simpl. split_and!; auto. lia.
  - rewrite step_ToggleMute. simpl. split_and!; auto. lia.
Qed.

(** X13. Until [reset] or [nextWord], a round only moves forward: the
    guessed set only grows, the counter never goes down, and the word and
    the level index stay, so a character shown once stays shown. *)
Theorem round_moves_forward (es : list Event) (s : State) :
  Forall (λ e, restarts e = false) es →
  guessed s ⊆ guessed (run es s) ∧
  wrong s ≤ wrong (run es s) ∧
  targetWord (run es s) = targetWord s ∧
  levelIndex (run es s) = levelIndex s ∧
  (∀ c, shown (guessed s) c ≠ "_"%char →
        shown (guessed (run es s)) c = shown (guessed s) c).
Proof.
  intros Hes.
  cut (guessed s ⊆ guessed (run es s) ∧ wrong s ≤ wrong (run es s) ∧
       targetWord (run es s) = targetWord s ∧
       levelIndex (run es s) = levelIndex s).
  { intros (Hg & Hw & Ht & Hl). split_and!; auto.
    intros c. unfold shown. case_bool_decide as Hc; [| congruence].
    intros _. rewrite bool_decide_eq_true_2; [reflexivity | apply Hg, Hc]. }
  revert s. induction Hes as [| e es He _ IH]; intros s.
  - simpl. split_and!; auto. lia.
  - destruct (step_keeps_round e s He) as (Hg & Hw & Ht & Hl).
    destruct (IH (step e s)) as (Hg' & Hw' & Ht' & Hl').
    change (run (e :: es) s) with (run es (step e s)).
    split_and!; [etrans; eassumption | lia | congruence | congruence].
Qed.

Lemma round_moves_forward_witness :
  let s := guess "R" (mount 1) in
  let es := [Guess "Q"; TogglePause; Guess "E"; TogglePause; Guess "E"] in
  guessed s ⊆ guessed (run es s) ∧
  wrong s ≤ wrong (run es s) ∧
  targetWord (run es s) = targetWord s ∧
  levelIndex (run es s) = levelIndex s ∧
  (∀ c, shown (guessed s) c ≠ "_"%char →
        shown (guessed (run es s)) c = shown (guessed s) c).
Proof. apply round_moves_forward. repeat constructor. Defined.

(** ** The keyboard *)

Lemma keyDisabled_accepts l s : keyDisabled l s = false ↔ accepts l s.
Proof.
  unfold keyDisabled, accepts.
  rewrite !orb_false_iff, negb_false_iff, bool_decide_eq_false,
    bool_decide_eq_true.
  tauto.
Qed.

(** X14. A key is disabled exactly when a guess of its letter would change
    nothing: [onGuess] refuses what the keyboard does not offer, and takes
    every letter of a key that is enabled. *)
Theorem keyDisabled_iff_guess_ignored (l : string) (s : State) :
  (keyDisabled l s = true ↔ guess l s = s) ∧
  (keyDisabled l s = false ↔ (l ∉ guessed s) ∧ l ∈ guessed (guess l s)).
Proof.
  destruct (decide (accepts l s)) as [Ha | Ha].
  - pose proof (proj2 (keyDisabled_accepts l s) Ha) as Hk.
    pose proof (guess_keeps_letter s l Ha) as Hin.
    destruct Ha as (_ & _ & Hl). rewrite Hk. split.
    + split; [discriminate |]. intros Heq. unfold guess in Heq.
      rewrite Heq in Hin. contradiction.
    + split; auto.
  - assert (Hk : keyDisabled l s = true).
    { destruct (keyDisabled l s) eqn:Hk; [reflexivity |].
      apply keyDisabled_accepts in Hk. contradiction. }
    pose proof (step_Guess_ignored l s Ha) as Hs. unfold guess.
    rewrite Hk, Hs. split; [tauto |].
    split; [discriminate | intros [? ?]; contradiction].
Qed.

Lemma keys_ALPHABET : keys ≡ₚ ALPHABET.
Proof.
  apply NoDup_Permutation.
  - apply (bool_decide_unpack (NoDup keys)). vm_compute. exact I.
  - apply (bool_decide_unpack (NoDup ALPHABET)). vm_compute. exact I.
  - intros x. split; intros Hx.
    + revert x Hx. apply Forall_forall.
      apply (bool_decide_unpack (Forall (λ x, x ∈ ALPHABET) keys)).
      vm_compute. exact I.
    + revert x Hx. apply Forall_forall.
      apply (bool_decide_unpack (Forall (λ x, x ∈ keys) ALPHABET)).
      vm_compute. exact I.
Qed.

Lemma WORDS_on_keys w ch : w ∈ WORDS → ch ∈ split w → ch ∈ keys.
Proof.
  intros Hw. revert ch. apply Forall_forall. revert w Hw. apply Forall_forall.
  apply (bool_decide_unpack
           (Forall (λ w, Forall (λ ch, ch ∈ keys) (split w)) WORDS)).
  vm_compute. exact I.
Qed.

Lemma reachable_in_WORDS s : reachable s → targetWord s ∈ WORDS.
Proof.
  intros Hr. pose proof (inv_word s (reachable_Inv s Hr)) as Hw.
  apply list_elem_of_lookup. eauto.
Qed.

(** X15. The keyboard offers the letters of [ALPHABET], each on one key,
    and in every reachable state each character of the word has its key. *)
Theorem keyboard_has_the_word (s : State) :
  reachable s →
  keys ≡ₚ ALPHABET ∧
  (∀ ch, ch ∈ split (targetWord s) → ch ∈ keys ∧ ch ∈ ALPHABET).
Proof.
  intros Hr. split; [apply keys_ALPHABET |]. intros ch Hch.
  assert (Hk : ch ∈ keys)
    by (eapply WORDS_on_keys; [apply reachable_in_WORDS, Hr | exact Hch]).
  split; [exact Hk |]. rewrite <- keys_ALPHABET. exact Hk.
Qed.

Lemma keyboard_has_the_word_witness :
  let s := step NextWord (mount 5) in
  keys ≡ₚ ALPHABET ∧
  (∀ ch, ch ∈ split (targetWord s) → ch ∈ keys ∧ ch ∈ ALPHABET).
Proof.
  apply keyboard_has_the_word.
  apply reachable_step, reachable_mount. simpl. lia.
Defined.

(** ** From word to word *)

(** X16. [pickWord] with an index always gives a word of [WORDS], the one
    at the index if that is a position of the list, and wraps around: an
    index and the index plus a multiple of the length give the same word. *)
Theorem pickWord_wraps (i k rnd : nat) :
  pickWord (Some i) rnd ∈ WORDS ∧
  pickWord (Some (i + k * length WORDS)%nat) rnd = pickWord (Some i) rnd ∧
  ((i < length WORDS)%nat → WORDS !! i = Some (pickWord (Some i) rnd)).
Proof.
  split_and!.
  - apply list_elem_of_lookup. eexists. apply pickWord_idx_lookup.
  - unfold pickWord. rewrite Nat.Div0.mod_add. reflexivity.
  - intros Hi. rewrite <- (Nat.mod_small i (length WORDS)) at 1 by exact Hi.
    apply pickWord_idx_lookup.
Qed.

Lemma pickWord_wraps_witness :
  WORDS !! 3%nat = Some (pickWord (Some 3%nat) 0).
Proof. apply (pickWord_wraps 3 2 0). simpl. lia. Defined.

Lemma levelIndex_run_NextWord k s :
  (levelIndex s < length WORDS)%nat →
  levelIndex (run (replicate k NextWord) s)
  = ((levelIndex s + k) mod length WORDS)%nat.
Proof.
  revert s. induction k as [| k IH]; intros s Hs.
  - change (run (replicate 0 NextWord) s) with s.
    rewrite Nat.add_0_r, Nat.mod_small by exact Hs. reflexivity.
  - change (run (replicate (S k) NextWord) s)
      with (run (replicate k NextWord) (step NextWord s)).
    rewrite IH; rewrite step_NextWord; cbn [nextWord levelIndex].
    + rewrite Nat.Div0.add_mod_idemp_l. f_equal. lia.
    + apply Nat.mod_upper_bound. rewrite WORDS_length. lia.
Qed.

Lemma reachable_levelIndex s : reachable s → (levelIndex s < length WORDS)%nat.
Proof.
  intros Hr. pose proof (inv_word s (reachable_Inv s Hr)) as Hw.
  eapply lookup_lt_Some, Hw.
Qed.

Lemma targetWord_run_NextWord k s :
  reachable s →
  WORDS !! ((levelIndex s + k) mod length WORDS)%nat
  = Some (targetWord (run (replicate k NextWord) s)).
Proof.
  intros Hr. rewrite <- levelIndex_run_NextWord by apply reachable_levelIndex, Hr.
  apply (inv_word _ (reachable_Inv _ (reachable_run _ _ Hr))).
Qed.

(** X17. [nextWord] walks the list in a circle: after [k] of them the word
    is the one [k] places further, counted modulo the length; the next word
    is never the word just played, every word of the list comes up within
    one round of the circle, and a full circle returns to the word and the
    level index it began with. *)
Theorem nextWord_circle (s : State) :
  reachable s →
  (∀ k, WORDS !! ((levelIndex s + k) mod length WORDS)%nat
        = Some (targetWord (run (replicate k NextWord) s))) ∧
  targetWord (doNextWord s) ≠ targetWord s ∧
  (∀ w, w ∈ WORDS →
        ∃ k, (k < length WORDS)%nat ∧
             targetWord (run (replicate k NextWord) s) = w) ∧
  targetWord (run (replicate (length WORDS) NextWord) s) = targetWord s ∧
  levelIndex (run (replicate (length WORDS) NextWord) s) = levelIndex s.
Proof.
  intros Hr. pose proof (reachable_levelIndex s Hr) as Hl.
  pose proof (inv_word s (reachable_Inv s Hr)) as Hw.
  pose proof (targetWord_run_NextWord) as Hk.
  split_and!.
  - intros k. apply Hk, Hr.
  - intros Heq. pose proof (Hk 1%nat s Hr) as H1.
    change (run (replicate 1 NextWord) s) with (doNextWord s) in H1.
    rewrite Heq in H1.
    pose proof (NoDup_lookup _ _ _ _ WORDS_NoDup H1 Hw) as Hi.
    rewrite WORDS_length in *.
    destruct (decide (levelIndex s + 1 = 10)%nat) as [He | He].
    + rewrite He in Hi. simpl in Hi. lia.
    + rewrite Nat.mod_small in Hi by lia. lia.
  - intros w Hin. apply list_elem_of_lookup in Hin as [i Hi].
    pose proof (lookup_lt_Some _ _ _ Hi) as Hlt.
    rewrite WORDS_length in *.
    destruct (decide (levelIndex s ≤ i)%nat) as [Hle | Hgt].
    + exists (i - levelIndex s)%nat. split; [lia |].
      pose proof (Hk (i - levelIndex s)%nat s Hr) as Hk'.
      replace (levelIndex s + (i - levelIndex s))%nat with i in Hk' by lia.
      rewrite Nat.mod_small in Hk' by lia. congruence.
    + exists (i + 10 - levelIndex s)%nat. split; [lia |].
      pose proof (Hk (i + 10 - levelIndex s)%nat s Hr) as Hk'.
      replace (levelIndex s + (i + 10 - levelIndex s))%nat
        with (i + 1 * 10)%nat in Hk' by lia.
      rewrite Nat.Div0.mod_add, Nat.mod_small in Hk' by lia. congruence.
  - pose proof (Hk (length WORDS) s Hr) as Hk'.
    replace (levelIndex s + length WORDS)%nat
      with (levelIndex s + 1 * length WORDS)%nat in Hk' by lia.
    rewrite Nat.Div0.mod_add, Nat.mod_small in Hk' by exact Hl. congruence.
  - rewrite levelIndex_run_NextWord by exact Hl.
    replace (levelIndex s + length WORDS)%nat
      with (levelIndex s + 1 * length WORDS)%nat by lia.
    rewrite Nat.Div0.mod_add. apply Nat.mod_small, Hl.
Qed.

Lemma nextWord_circle_witness :
  let s := guess "Q" (mount 8) in
  (∀ k, WORDS !! ((levelIndex s + k) mod length WORDS)%nat
        = Some (targetWord (run (replicate k NextWord) s))) ∧
  targetWord (doNextWord s) ≠ targetWord s ∧
  (∀ w, w ∈ WORDS →
        ∃ k, (k < length WORDS)%nat ∧
             targetWord (run (replicate k NextWord) s) = w) ∧
  targetWord (run (replicate (length WORDS) NextWord) s) = targetWord s ∧
  levelIndex (run (replicate (length WORDS) NextWord) s) = levelIndex s.
Proof.
  apply nextWord_circle.
  apply reachable_step, reachable_mount. simpl. lia.
Defined.

(** ** What the player sees of the word *)

Lemma display_spaced_eq s :
  display s
  = spaced (shown (guessed s) <$> String.list_ascii_of_string (targetWord s)).
Proof.
  unfold display. destruct (targetWord s) as [| c w]; [reflexivity |].
  cbn [falsy]. apply join_split_spaced.
Qed.

Lemma spaced_inj (l l' : list ascii) : spaced l = spaced l' → l = l'.
Proof.
  intros H. apply list_eq. intros i.
  rewrite <- !spaced_get_even, H. reflexivity.
Qed.

Lemma split_fmap (w : string) :
  split w = (λ c, String c EmptyString) <$> String.list_ascii_of_string w.
Proof. induction w as [| c w IH]; simpl; [| rewrite IH]; reflexivity. Qed.

Lemma fmap_fixes {A : Type} (f : A → A) (l : list A) :
  f <$> l = l ↔ Forall (λ x, f x = x) l.
Proof.
  induction l as [| x l IH].
  - split; [constructor | reflexivity].
  - rewrite fmap_cons, Forall_cons, <- IH. split.
    + intros H. injection H. auto.
    + intros [Hx Hl]. rewrite Hx, Hl. reflexivity.
Qed.

Lemma fmap_blank (g : gset string) (l : list ascii) :
  g = ∅ → shown g <$> l = replicate (length l) "_"%char.
Proof.
  intros ->. induction l as [| c l IH]; [reflexivity |].
  rewrite fmap_cons, IH. unfold shown.
  rewrite bool_decide_eq_false_2 by apply not_elem_of_empty. reflexivity.
Qed.

Lemma display_no_guess s :
  guessed s = ∅ → display s = blanks (String.length (targetWord s)).
Proof.
  intros Hg. rewrite display_spaced_eq, (fmap_blank _ _ Hg), length_list_ascii.
  reflexivity.
Qed.

(** X18. A round that [reset] or [nextWord] has just started shows one
    underscore for each character of its word, and nothing else but the
    spaces between them. *)
Theorem fresh_round_display (s : State) :
  display (doReset s) = blanks (String.length (targetWord s)) ∧
  display (doNextWord s)
  = blanks (String.length (targetWord (doNextWord s))) ∧
  String.length (targetWord (doNextWord s)) ≠ 0%nat.
Proof.
  unfold doReset, doNextWord. rewrite step_Reset, step_NextWord. split_and!.
  - apply (display_no_guess (reset s)). reflexivity.
  - apply (display_no_guess (nextWord s)). reflexivity.
  - pose proof (WORDS_nonempty _ (nextWord_in_WORDS s)) as H.
    destruct (targetWord (nextWord s)); [discriminate | simpl; lia].
Qed.

Lemma WORDS_no_underscore w :
  w ∈ WORDS → "_"%char ∉ String.list_ascii_of_string w.
Proof.
  revert w. apply Forall_forall.
  apply (bool_decide_unpack
           (Forall (λ w, "_"%char ∉ String.list_ascii_of_string w) WORDS)).
  vm_compute. exact I.
Qed.

(** X19. In every reachable state the display shows the word itself,
    every character and no underscore, exactly when every character of the
    word is guessed: whenever the round is won, and, once the win/loss
    effect has nothing left to change, only then. *)
Theorem display_word_iff_complete (s : State) :
  reachable s →
  (display s = spaced (String.list_ascii_of_string (targetWord s))
   ↔ fullyGuessed s) ∧
  (status s = won →
   display s = spaced (String.list_ascii_of_string (targetWord s))) ∧
  (status (winLossEffect s) = won ↔
   display s = spaced (String.list_ascii_of_string (targetWord s))) ∧
  (winLossEffect s = s →
   (status s = won ↔
    display s = spaced (String.list_ascii_of_string (targetWord s)))).
Proof.
  intros Hr. pose proof (reachable_Inv s Hr) as HI.
  pose proof (WORDS_no_underscore _ (reachable_in_WORDS s Hr)) as Hnu.
  assert (Hd : display s = spaced (String.list_ascii_of_string (targetWord s))
               ↔ fullyGuessed s).
  { rewrite display_spaced_eq. unfold fullyGuessed. rewrite split_fmap. split.
    - intros Heq ch Hch. apply spaced_inj, fmap_fixes in Heq.
      apply list_elem_of_fmap in Hch as (c & -> & Hc).
      pose proof (proj1 (Forall_forall _ _) Heq c Hc) as Hsh.
      unfold shown in Hsh. case_bool_decide as Hg; [exact Hg |].
      exfalso. apply Hnu. rewrite Hsh. exact Hc.
    - intros Hf. f_equal. apply fmap_fixes, Forall_forall. intros c Hc.
      unfold shown. rewrite bool_decide_eq_true_2; [reflexivity |].
      apply Hf, list_elem_of_fmap. eauto. }
  assert (Hv : verdict s = won ↔ fullyGuessed s).
  { rewrite <- hasWon_fullyGuessed. unfold verdict.
    destruct (hasWon s); [tauto |].
    destruct (bool_decide _); split; discriminate. }
  split_and!.
  - exact Hd.
  - intros Hw. apply Hd, hasWon_fullyGuessed, (inv_won s HI Hw).
  - rewrite (commit_status s HI), Hv, Hd. reflexivity.
  - intros Hs. rewrite (settled_status s HI Hs), Hv, Hd. reflexivity.
Qed.

Lemma display_word_iff_complete_witness :
  let s := handle (Guess "T")
             (guess "C" (guess "A" (guess "E" (guess "R" (mount 1))))) in
  (display s = spaced (String.list_ascii_of_string (targetWord s))
   ↔ fullyGuessed s) ∧
  (status s = won →
   display s = spaced (String.list_ascii_of_string (targetWord s))) ∧
  (status (winLossEffect s) = won ↔
   display s = spaced (String.list_ascii_of_string (targetWord s))) ∧
  (winLossEffect s = s →
   (status s = won ↔
    display s = spaced (String.list_ascii_of_string (targetWord s)))).
Proof.
  apply display_word_iff_complete.
  apply reachable_handle. do 4 apply reachable_step.
  apply reachable_mount. simpl. lia.
Defined.

(** X20. In every reachable state exactly one action button is on screen:
    "Reset" while the round is in play, with an empty status line, and
    "Play Again" once it is over, with the one line that tells the outcome,
    and the word if the round is lost. *)
Theorem one_action_button (s : State) :
  reachable s →
  (status s = playing ∧ actionButtons s = ["Reset"] ∧ statusLine s = []) ∨
  (status s = won ∧ actionButtons s = ["Play Again"] ∧
   statusLine s = ["Nice! You guessed it!"]) ∨
  (status s = lost ∧ actionButtons s = ["Play Again"] ∧
   statusLine s = ["Oops! The word was " +:+ targetWord s] ∧
   targetWord s ∈ WORDS).
Proof.
  intros Hr. pose proof (reachable_in_WORDS s Hr) as Hw.
  unfold actionButtons, statusLine.
  destruct (status_cases s (reachable_Inv s Hr)) as [H | [H | H]];
    rewrite H; simpl; auto 10.
Qed.

Lemma one_action_button_witness :
  let s := guess "T" (guess "Q" (mount 1)) in
  (status s = playing ∧ actionButtons s = ["Reset"] ∧ statusLine s = []) ∨
  (status s = won ∧ actionButtons s = ["Play Again"] ∧
   statusLine s = ["Nice! You guessed it!"]) ∨
  (status s = lost ∧ actionButtons s = ["Play Again"] ∧
   statusLine s = ["Oops! The word was " +:+ targetWord s] ∧
   targetWord s ∈ WORDS).
Proof.
  apply one_action_button.
  do 2 apply reachable_step. apply reachable_mount. simpl. lia.
Defined.

(** ** Guesses that are no letters *)

Lemma includes_empty (w : string) : includes w EmptyString = true.
Proof. destruct w; reflexivity. Qed.

Lemma shown_add (g : gset string) (L : string) (c : ascii) :
  String.length L ≠ 1%nat → shown (g ∪ {[ L ]}) c = shown g c.
Proof.
  intros HL. unfold shown.
  rewrite (bool_decide_ext (String c EmptyString ∈ g ∪ {[ L ]})
             (String c EmptyString ∈ g)); [reflexivity |].
  rewrite elem_of_union, elem_of_singleton.
  split; [intros [? | <-]; [assumption | simpl in HL; lia] | auto].
Qed.

Lemma not_letter_not_split (w L : string) :
  String.length L ≠ 1%nat → L ∉ split w.
Proof.
  intros HL Hin. destruct (split_elem_char _ _ Hin) as [c ->].
  simpl in HL. lia.
Qed.

(** X21. [onGuess] takes any string. In play, a new string that is not one
    character long (the empty string, or several characters) is added to
    the guessed set, but it shows no character of the word and does not
    complete it: after the guess the word is complete only if it was
    before. The empty string, which every word includes, does not count as
    wrong either, so the status that is committed after it is the one that
    would have been committed without it. *)
Theorem guess_not_a_letter (s : State) (L : string) :
  reachable s → accepts L s → String.length L ≠ 1%nat →
  guessed (guess L s) = guessed s ∪ {[ L ]} ∧
  display (guess L s) = display s ∧
  hasWon (guess L s) = hasWon s ∧
  (L = EmptyString →
   wrong (guess L s) = wrong s ∧
   status (guess L s) = status (winLossEffect s)).
Proof.
  intros Hr Ha HL. pose proof (reachable_Inv s Hr) as HI.
  pose proof (Inv_handle (Guess L) s HI) as HI'. simpl in HI'.
  pose proof (commit_status _ HI') as Hs.
  pose proof (commit_status _ HI) as Hs0.
  assert (Hh : hasWon (onGuess L s) = hasWon s).
  { rewrite (onGuess_accepted _ _ Ha). unfold hasWon. simpl.
    apply forallb_guessed_add, not_letter_not_split, HL. }
  unfold guess. rewrite (step_Guess_accepted _ _ Ha).
  rewrite winLossEffect_hasWon, Hh, Hs, Hs0, !display_spaced_eq.
  unfold verdict. rewrite Hh.
  destruct (winLossEffect_frame (onGuess L s))
    as (-> & -> & -> & _ & _ & _ & _).
  rewrite (onGuess_accepted _ _ Ha). simpl. split_and!.
  - reflexivity.
  - f_equal. apply list_fmap_ext. intros i c _. apply shown_add, HL.
  - reflexivity.
  - intros ->. rewrite includes_empty. auto.
Qed.

Lemma guess_not_a_letter_witness :
  let s := guess "R" (mount 1) in
  let L := "" in
  guessed (guess L s) = guessed s ∪ {[ L ]} ∧
  display (guess L s) = display s ∧
  hasWon (guess L s) = hasWon s ∧
  (L = EmptyString →
   wrong (guess L s) = wrong s ∧
   status (guess L s) = status (winLossEffect s)).
Proof.
  apply guess_not_a_letter.
  - apply reachable_step, reachable_mount. simpl. lia.
  - apply (bool_decide_unpack (accepts _ _)). vm_compute. exact I.
  - simpl. lia.
Defined.
